(** * psi: a PID 1 wrapper for single-process containers

    Shallow embedding of [psi.go] (package [pkt.systems/psi]) and of the
    parts of the Go standard library it calls, followed by the properties
    of the role dispatcher, the worker, the supervisor loop, the reaper and
    the stop-timeout parser. *)

From Stdlib Require Import String Ascii ZArith List Bool Lia.
Import ListNotations.
Local Open Scope Z_scope.

(** ** Go values: strings are byte sequences, integers wrap around *)

Module Go.

Definition gostring := list ascii.

(** A Go string literal. *)
Definition str (s : string) : gostring := list_ascii_of_string s.

Definition byteZ (c : ascii) : Z := Z.of_N (N_of_ascii c).

Definition uint64 (x : Z) : Z := x mod 2 ^ 64.
Definition int64 (x : Z) : Z := (x + 2 ^ 63) mod 2 ^ 64 - 2 ^ 63.

Fixpoint bytes_eqb (a b : gostring) : bool :=
  match a, b with
  | [], [] => true
  | x :: a', y :: b' => Ascii.eqb x y && bytes_eqb a' b'
  | _, _ => false
  end.

(** [s[i]] and [s[a:b]] for indices inside the string. *)
Definition byte_at (s : gostring) (i : Z) : Z :=
  byteZ (nth (Z.to_nat i) s zero).

Definition slice (s : gostring) (a b : Z) : gostring :=
  firstn (Z.to_nat (b - a)) (skipn (Z.to_nat a) s).

Definition len (s : gostring) : Z := Z.of_nat (length s).

(** [len(ch) < cap] for a channel buffer. *)
Definition len_nat_lt {A} (l : list A) (cap : Z) : bool :=
  Z.of_nat (length l) <? cap.

(** *** unicode/utf8 *)

Definition RuneError : Z := 0xFFFD.
Definition RuneSelf : Z := 0x80.
Definition UTFMax : Z := 4.

(** The table [first]: information about the first byte of an encoding. *)
Definition first (b : Z) : Z :=
  if b <? 0x80 then 0xF0        (* as: ASCII *)
  else if b <? 0xC2 then 0xF1   (* xx: invalid *)
  else if b <? 0xE0 then 0x02   (* s1 *)
  else if b =? 0xE0 then 0x13   (* s2 *)
  else if b <? 0xED then 0x03   (* s3 *)
  else if b =? 0xED then 0x23   (* s4 *)
  else if b <? 0xF0 then 0x03   (* s3 *)
  else if b =? 0xF0 then 0x34   (* s5 *)
  else if b <? 0xF4 then 0x04   (* s6 *)
  else if b =? 0xF4 then 0x44   (* s7 *)
  else 0xF1.                    (* xx *)

Definition acceptRanges (i : Z) : Z * Z :=
  match i with
  | 0 => (0x80, 0xBF)
  | 1 => (0xA0, 0xBF)
  | 2 => (0x80, 0x9F)
  | 3 => (0x90, 0xBF)
  | 4 => (0x80, 0x8F)
  | _ => (0, 0)
  end.

(** [utf8.DecodeRuneInString]: the rune at the start of [s] and its width. *)
Definition DecodeRuneInString (s : gostring) : Z * Z :=
  let n := len s in
  if n <? 1 then (RuneError, 0) else
  let s0 := byte_at s 0 in
  let x := first s0 in
  if 0xF0 <=? x then
    ((if x =? 0xF1 then RuneError else s0), 1)
  else
    let sz := Z.land x 7 in
    let accept := acceptRanges (Z.shiftr x 4) in
    if n <? sz then (RuneError, 1) else
    let s1 := byte_at s 1 in
    if (s1 <? fst accept) || (snd accept <? s1) then (RuneError, 1) else
    if sz <=? 2 then
      (Z.lor (Z.shiftl (Z.land s0 0x1F) 6) (Z.land s1 0x3F), 2)
    else
    let s2 := byte_at s 2 in
    if (s2 <? 0x80) || (0xBF <? s2) then (RuneError, 1) else
    if sz <=? 3 then
      (Z.lor (Z.lor (Z.shiftl (Z.land s0 0x0F) 12)
                    (Z.shiftl (Z.land s1 0x3F) 6))
             (Z.land s2 0x3F), 3)
    else
    let s3 := byte_at s 3 in
    if (s3 <? 0x80) || (0xBF <? s3) then (RuneError, 1) else
    (Z.lor (Z.lor (Z.lor (Z.shiftl (Z.land s0 0x07) 18)
                         (Z.shiftl (Z.land s1 0x3F) 12))
                  (Z.shiftl (Z.land s2 0x3F) 6))
           (Z.land s3 0x3F), 4).

Definition RuneStart (b : Z) : bool := negb (Z.land b 0xC0 =? 0x80).

(** The backwards scan of [utf8.DecodeLastRuneInString] for the start of
    the last rune, from [start] down to [lim]. *)
Fixpoint lastRuneStart (fuel : nat) (s : gostring) (start lim : Z) : Z :=
  match fuel with
  | O => start
  | S f =>
      if start <? lim then start
      else if RuneStart (byte_at s start) then start
      else lastRuneStart f s (start - 1) lim
  end.

Definition DecodeLastRuneInString (s : gostring) : Z * Z :=
  let end_ := len s in
  if end_ =? 0 then (RuneError, 0) else
  let start := end_ - 1 in
  let r := byte_at s start in
  if r <? RuneSelf then (r, 1) else
  let lim := Z.max (end_ - UTFMax) 0 in
  let start := lastRuneStart 5 s (start - 1) lim in
  let start := if start <? 0 then 0 else start in
  let '(r, size) := DecodeRuneInString (slice s start end_) in
  if negb (start + size =? end_) then (RuneError, 1) else (r, size).

(** *** unicode *)

Definition IsSpace (r : Z) : bool :=
  if r <=? 0xFF then
    (r =? 9) || (r =? 10) || (r =? 11) || (r =? 12) || (r =? 13)
    || (r =? 32) || (r =? 0x85) || (r =? 0xA0)
  else
    (r =? 0x1680) || ((0x2000 <=? r) && (r <=? 0x200A))
    || (r =? 0x2028) || (r =? 0x2029) || (r =? 0x202F)
    || (r =? 0x205F) || (r =? 0x3000).

(** *** strings *)

(** [indexFunc s f truth]: byte offset of the first rune [r] of [s] with
    [f r = truth], or [-1]; [i] is the offset of [s] in the whole string. *)
Fixpoint indexFunc_from (fuel : nat) (i : Z) (s : gostring)
    (f : Z -> bool) (truth : bool) : Z :=
  match fuel with
  | O => -1
  | S fuel' =>
      match s with
      | [] => -1
      | _ =>
          let '(r, size) := DecodeRuneInString s in
          if Bool.eqb (f r) truth then i
          else indexFunc_from fuel' (i + size) (skipn (Z.to_nat size) s) f truth
      end
  end.

Definition indexFunc (s : gostring) (f : Z -> bool) (truth : bool) : Z :=
  indexFunc_from (length s) 0 s f truth.

Fixpoint lastIndexFunc_from (fuel : nat) (i : Z) (s : gostring)
    (f : Z -> bool) (truth : bool) : Z :=
  match fuel with
  | O => -1
  | S fuel' =>
      if 0 <? i then
        let '(r, size) := DecodeLastRuneInString (slice s 0 i) in
        let i := i - size in
        if Bool.eqb (f r) truth then i
        else lastIndexFunc_from fuel' i s f truth
      else -1
  end.

Definition lastIndexFunc (s : gostring) (f : Z -> bool) (truth : bool) : Z :=
  lastIndexFunc_from (length s) (len s) s f truth.

Definition TrimLeftFunc (s : gostring) (f : Z -> bool) : gostring :=
  let i := indexFunc s f false in
  if i =? -1 then [] else slice s i (len s).

Definition TrimRightFunc (s : gostring) (f : Z -> bool) : gostring :=
  let i := lastIndexFunc s f false in
  let i :=
    if (0 <=? i) && (RuneSelf <=? byte_at s i) then
      i + snd (DecodeRuneInString (slice s i (len s)))
    else i + 1 in
  slice s 0 i.

Definition TrimFunc (s : gostring) (f : Z -> bool) : gostring :=
  TrimRightFunc (TrimLeftFunc s f) f.

Definition asciiSpace (c : Z) : bool :=
  (c =? 9) || (c =? 10) || (c =? 11) || (c =? 12) || (c =? 13) || (c =? 32).

(** Second loop of [strings.TrimSpace], on the reversed [s[start:stop]]:
    [stop] moves down over ASCII space. *)
Fixpoint TrimSpace_stop (r : gostring) : gostring :=
  match r with
  | [] => []
  | c :: t =>
      if RuneSelf <=? byteZ c then TrimRightFunc (rev r) IsSpace
      else if asciiSpace (byteZ c) then TrimSpace_stop t
      else rev r
  end.

(** First loop of [strings.TrimSpace]: [start] moves up over ASCII space;
    a byte outside ASCII hands the rest to the rune-aware [TrimFunc]. *)
Fixpoint TrimSpace (s : gostring) : gostring :=
  match s with
  | [] => []
  | c :: t =>
      if RuneSelf <=? byteZ c then TrimFunc s IsSpace
      else if asciiSpace (byteZ c) then TrimSpace t
      else TrimSpace_stop (rev s)
  end.

(** [strings.ToUpper]: ASCII-only strings are mapped byte by byte; any
    other string goes through [Map(unicode.ToUpper, s)], which is not
    modelled and supplied by [GoRuntime]. *)
Definition isLowerASCII (c : Z) : bool := (97 <=? c) && (c <=? 122).

Definition upperASCII (c : ascii) : ascii :=
  if isLowerASCII (byteZ c) then ascii_of_N (N_of_ascii c - 32) else c.

(** The parts of the Go runtime library that are left abstract. *)
Class GoRuntime := {
  (** [uint64(float64(f) * (float64(unit) / scale))] of [time.ParseDuration] *)
  fracNanos : Z -> Z -> Z -> Z;
  (** [strings.Map(unicode.ToUpper, s)] *)
  mapUnicodeToUpper : gostring -> gostring
}.

Definition ToUpper `{GoRuntime} (s : gostring) : gostring :=
  if forallb (fun c => byteZ c <? RuneSelf) s then map upperASCII s
  else mapUnicodeToUpper s.

(** *** time *)

Definition Nanosecond : Z := 1.
Definition Microsecond : Z := 1000 * Nanosecond.
Definition Millisecond : Z := 1000 * Microsecond.
Definition Second : Z := 1000 * Millisecond.
Definition Minute : Z := 60 * Second.
Definition Hour : Z := 60 * Minute.

Inductive error :=
| errInvalidDuration
| errMissingUnit
| errUnknownUnit (u : gostring).

Definition isDigit (c : Z) : bool := (48 <=? c) && (c <=? 57).

(** [leadingInt]: consumes the leading decimal digits; [None] on overflow. *)
Fixpoint leadingInt_from (x : Z) (s : gostring) : option (Z * gostring) :=
  match s with
  | [] => Some (x, [])
  | c :: t =>
      let cz := byteZ c in
      if (cz <? 48) || (57 <? cz) then Some (x, s)
      else if 2 ^ 63 / 10 <? x then None
      else
        let x := uint64 (x * 10 + cz - 48) in
        if 2 ^ 63 <? x then None else leadingInt_from x t
  end.

Definition leadingInt (s : gostring) : option (Z * gostring) :=
  leadingInt_from 0 s.

(** [leadingFraction]: consumes the leading digits after a period; on
    overflow it stops accumulating precision. [scale] is a power of ten. *)
Fixpoint leadingFraction_from (x scale : Z) (overflow : bool) (s : gostring)
    : Z * Z * gostring :=
  match s with
  | [] => (x, scale, [])
  | c :: t =>
      let cz := byteZ c in
      if (cz <? 48) || (57 <? cz) then (x, scale, s)
      else if overflow then leadingFraction_from x scale overflow t
      else if (2 ^ 63 - 1) / 10 <? x then leadingFraction_from x scale true t
      else
        let y := uint64 (x * 10 + cz - 48) in
        if 2 ^ 63 <? y then leadingFraction_from x scale true t
        else leadingFraction_from y (scale * 10) false t
  end.

Definition leadingFraction (s : gostring) : Z * Z * gostring :=
  leadingFraction_from 0 1 false s.

(** The unit of a component: everything up to the next period or digit. *)
Fixpoint unitSpan (s : gostring) : gostring * gostring :=
  match s with
  | [] => ([], [])
  | c :: t =>
      if (byteZ c =? 46) || isDigit (byteZ c) then ([], s)
      else let '(u, r) := unitSpan t in (c :: u, r)
  end.

Definition micro_s : gostring := [ascii_of_nat 194; ascii_of_nat 181; "s"%char].
Definition mu_s : gostring := [ascii_of_nat 206; ascii_of_nat 188; "s"%char].

Definition unitMap (u : gostring) : option Z :=
  if bytes_eqb u (str "ns") then Some Nanosecond
  else if bytes_eqb u (str "us") then Some Microsecond
  else if bytes_eqb u micro_s then Some Microsecond
  else if bytes_eqb u mu_s then Some Microsecond
  else if bytes_eqb u (str "ms") then Some Millisecond
  else if bytes_eqb u (str "s") then Some Second
  else if bytes_eqb u (str "m") then Some Minute
  else if bytes_eqb u (str "h") then Some Hour
  else None.

(** The main loop of [time.ParseDuration]: one component (digits, an
    optional period and digits, a unit) per iteration, accumulated in the
    [uint64] [d]. Every iteration consumes at least one byte, so [length s]
    iterations are enough. *)
Fixpoint ParseDuration_loop `{GoRuntime} (fuel : nat) (d : Z) (s : gostring)
    : error + Z :=
  match s with
  | [] => inr d
  | c :: _ =>
      match fuel with
      | O => inl errInvalidDuration
      | S fuel' =>
          if negb ((byteZ c =? 46) || isDigit (byteZ c))
          then inl errInvalidDuration
          else
          match leadingInt s with
          | None => inl errInvalidDuration
          | Some (v, s1) =>
              let pre := negb (len s =? len s1) in
              let '(f, scale, s2, post) :=
                match s1 with
                | c1 :: t1 =>
                    if byteZ c1 =? 46 then
                      let '(f, scale, r) := leadingFraction t1 in
                      (f, scale, r, negb (len t1 =? len r))
                    else (0, 1, s1, false)
                | [] => (0, 1, s1, false)
                end in
              if negb pre && negb post then inl errInvalidDuration
              else
              let '(u, s3) := unitSpan s2 in
              match u with
              | [] => inl errMissingUnit
              | _ =>
                  match unitMap u with
                  | None => inl (errUnknownUnit u)
                  | Some unit =>
                      if 2 ^ 63 / unit <? v then inl errInvalidDuration
                      else
                      let v := uint64 (v * unit) in
                      let v' :=
                        if 0 <? f then uint64 (v + fracNanos f unit scale)
                        else v in
                      if (0 <? f) && (2 ^ 63 <? v') then inl errInvalidDuration
                      else
                      let d := uint64 (d + v') in
                      if 2 ^ 63 <? d then inl errInvalidDuration
                      else ParseDuration_loop fuel' d s3
                  end
              end
          end
      end
  end.

(** [time.ParseDuration]: a duration in nanoseconds ([int64]) or an error. *)
Definition ParseDuration `{GoRuntime} (orig : gostring) : error + Z :=
  let '(neg, s) :=
    match orig with
    | c :: t =>
        if (byteZ c =? 45) || (byteZ c =? 43) then (byteZ c =? 45, t)
        else (false, orig)
    | [] => (false, orig)
    end in
  if bytes_eqb s (str "0") then inr 0
  else
  match s with
  | [] => inl errInvalidDuration
  | _ =>
      match ParseDuration_loop (length s) 0 s with
      | inl e => inl e
      | inr d =>
          if neg then inr (int64 (- int64 d))
          else if 2 ^ 63 - 1 <? d then inl errInvalidDuration
          else inr (int64 d)
      end
  end.

(** *** syscall (linux) *)

Definition SIGHUP : Z := 1.
Definition SIGINT : Z := 2.
Definition SIGQUIT : Z := 3.
Definition SIGKILL : Z := 9.
Definition SIGUSR1 : Z := 10.
Definition SIGUSR2 : Z := 12.
Definition SIGTERM : Z := 15.
Definition SIGCHLD : Z := 17.

Definition EINTR : Z := 4.
Definition ECHILD : Z := 10.

(** [syscall.WaitStatus] is a [uint32]. *)
Definition WaitStatus := Z.

Definition ws_mask : Z := 0x7F.
Definition ws_stopped : Z := 0x7F.
Definition ws_shift : Z := 8.

Definition Exited (w : WaitStatus) : bool := Z.land w ws_mask =? 0.

Definition Signaled (w : WaitStatus) : bool :=
  negb (Z.land w ws_mask =? ws_stopped) && negb (Z.land w ws_mask =? 0).

Definition ExitStatus (w : WaitStatus) : Z :=
  if negb (Exited w) then -1 else Z.land (Z.shiftr w ws_shift) 0xFF.

Definition Signal (w : WaitStatus) : Z :=
  if negb (Signaled w) then -1 else Z.land w ws_mask.

(** What a parent collects for a process that called [exit_group(code)]:
    the kernel keeps the low eight bits of the code. *)
Definition exited_status (code : Z) : WaitStatus :=
  Z.shiftl (Z.land code 0xFF) ws_shift.

(** [strings.HasPrefix]. *)
Definition HasPrefix (s prefix : gostring) : bool :=
  (len prefix <=? len s) && bytes_eqb (slice s 0 (len prefix)) prefix.

End Go.

(** ** The program: [psi.go] *)

Module Psi.
Import Go.

Definition childEnvKey : string := "PSI_CHILD".
Definition childEnvVal : gostring := str "1".

Definition stopTimeoutEnv : string := "PSI_STOP_TIMEOUT".
Definition defaultStopTimeout : Z := 30 * Second.

(** The process environment, as [os.LookupEnv] sees it. *)
Definition Environ := string -> option gostring.

Definition LookupEnv (env : Environ) (key : string) : option gostring :=
  env key.

Definition Getenv (env : Environ) (key : string) : gostring :=
  match env key with
  | Some v => v
  | None => []
  end.

Definition Setenv (env : Environ) (key : string) (v : gostring) : Environ :=
  fun k => if String.eqb k key then Some v else env k.

Definition Unsetenv (env : Environ) (key : string) : Environ :=
  fun k => if String.eqb k key then None else env k.

Definition emptyEnv : Environ := fun _ => None.

(** What the process does to the outside world, in order. *)
Inductive LogMsg :=
| FailedToStartChild (err : gostring)
| InvalidStopTimeout (val : gostring) (def : Z).

Inductive Effect :=
| Log (m : LogMsg)
| Exit (code : Z)
| StartChild (marker : string * gostring) (setpgid : bool)
| Kill (pid sig : Z)
| Wait4 (pid options : Z)
| Sleep (d : Z)
| NewTimer (d : Z)
| TimerStop
| TimerReset (d : Z)
| CloseDone.

Definition Trace := list Effect.

(** [log.Fatalf] is [log.Printf] followed by [os.Exit(1)]. *)
Definition log_Fatalf (m : LogMsg) : Trace := [Log m; Exit 1].

(** *** SubMain

    The entry point is a task that may look at its context any number of
    times before it returns its exit code: [Poll k] continues with [k b],
    where [b] tells whether the context is cancelled at that moment. *)
Inductive SubMain :=
| Return (code : Z)
| Poll (k : bool -> SubMain).

(** [submain(context.Background())]: the background context is never
    cancelled. *)
Fixpoint callWithBackground (submain : SubMain) : Z :=
  match submain with
  | Return code => code
  | Poll k => callWithBackground (k false)
  end.

(** *** runChild *)

Definition notified : list Z := [SIGINT; SIGTERM; SIGQUIT; SIGHUP].

Definition termChCap : Z := 8.

Record Worker := {
  ctxErr : bool;          (** the context has been cancelled *)
  termCh : list Z;        (** buffered signals, oldest first *)
  running : SubMain       (** what is left of [submain(ctx)] *)
}.

Inductive WorkerProc :=
| Working (w : Worker)
| WorkerExited (code : Z).

(** The [CancelFunc] of [context.WithCancel]: the first call closes the
    [Done] channel, later calls do nothing. *)
Definition cancel (w : Worker) : Worker * Trace :=
  if ctxErr w then (w, [])
  else ({| ctxErr := true; termCh := termCh w; running := running w |},
        [CloseDone]).

(** [runChild] once the handler is installed: a fresh context, an empty
    [termCh] subscribed to the four signals, and [submain(ctx)] about to
    run. What happens next is [worker_step]: the runtime relays signals,
    the goroutine receives them and calls [cancel], and [submain] runs
    until it returns and the process exits with its code. The deferred
    [cancel] never runs, since [os.Exit] does not run deferred calls. *)
Definition runChild (submain : SubMain) : Worker :=
  {| ctxErr := false; termCh := []; running := submain |}.

Inductive WorkerEvent :=
| Deliver (sig : Z)   (** the runtime relays a signal ([signal.Notify]) *)
| HandlerRecv         (** [for range termCh] receives one signal *)
| SubMainStep.        (** [submain] looks at its context or returns *)

(** One step of the worker process; [None] when the event cannot happen
    in this state (nothing to receive, a signal [termCh] is not
    subscribed to). A relayed signal is dropped when the buffer is full. *)
Definition worker_step (w : Worker) (ev : WorkerEvent)
    : option (WorkerProc * Trace) :=
  match ev with
  | Deliver sig =>
      if existsb (Z.eqb sig) notified then
        if len_nat_lt (termCh w) termChCap then
          Some (Working {| ctxErr := ctxErr w;
                           termCh := termCh w ++ [sig];
                           running := running w |}, [])
        else Some (Working w, [])
      else None
  | HandlerRecv =>
      match termCh w with
      | [] => None
      | _ :: rest =>
          let '(w', tr) :=
            cancel {| ctxErr := ctxErr w; termCh := rest;
                      running := running w |} in
          Some (Working w', tr)
      end
  | SubMainStep =>
      match running w with
      | Return code => Some (WorkerExited code, [Exit code])
      | Poll k =>
          Some (Working {| ctxErr := ctxErr w; termCh := termCh w;
                           running := k (ctxErr w) |}, [])
      end
  end.

Fixpoint worker_run (p : WorkerProc) (evs : list WorkerEvent)
    : option (WorkerProc * Trace) :=
  match evs with
  | [] => Some (p, [])
  | ev :: evs' =>
      match p with
      | WorkerExited _ => None
      | Working w =>
          match worker_step w ev with
          | None => None
          | Some (p', tr) =>
              match worker_run p' evs' with
              | None => None
              | Some (p'', tr') => Some (p'', tr ++ tr')
              end
          end
      end
  end.

(** *** Run *)

Inductive Dispatch :=
| ToRunChild (w : Worker)     (** [runChild(submain)] *)
| ToDirect (tr : Trace)       (** [os.Exit(submain(context.Background()))] *)
| ToRunAsInit.                (** [runAsInit()] *)

Definition Run (env : Environ) (pid : Z) (submain : SubMain) : Dispatch :=
  if bytes_eqb (Getenv env childEnvKey) childEnvVal then
    ToRunChild (runChild submain)
  else if negb (pid =? 1) then
    let code := callWithBackground submain in
    ToDirect [Exit code]
  else ToRunAsInit.

Inductive ProcessRole := Direct | Supervisor | WorkerRole.

Definition role (d : Dispatch) : ProcessRole :=
  match d with
  | ToRunChild _ => WorkerRole
  | ToDirect _ => Direct
  | ToRunAsInit => Supervisor
  end.

(** *** Signals *)

(** An [os.Signal] is an interface: the values the runtime delivers are
    [syscall.Signal] numbers; any other implementation is known by what
    its [String] method returns. *)
Inductive os_Signal :=
| SyscallSignal (n : Z)
| OtherSignal (name : gostring).

Definition os_Signal_eqb (a b : os_Signal) : bool :=
  match a, b with
  | SyscallSignal n, SyscallSignal m => n =? m
  | OtherSignal x, OtherSignal y => bytes_eqb x y
  | _, _ => false
  end.

Definition isTerminateSignal (s : os_Signal) : bool :=
  os_Signal_eqb s (SyscallSignal SIGTERM)
  || os_Signal_eqb s (SyscallSignal SIGINT)
  || os_Signal_eqb s (SyscallSignal SIGQUIT)
  || os_Signal_eqb s (SyscallSignal SIGHUP).

Definition toSyscallSignal `{GoRuntime} (s : os_Signal) : Z * bool :=
  match s with
  | SyscallSignal sig => (sig, true)
  | OtherSignal name =>
      let u := ToUpper name in
      if bytes_eqb u (str "SIGTERM") then (SIGTERM, true)
      else if bytes_eqb u (str "SIGINT") then (SIGINT, true)
      else if bytes_eqb u (str "SIGQUIT") then (SIGQUIT, true)
      else if bytes_eqb u (str "SIGHUP") then (SIGHUP, true)
      else if bytes_eqb u (str "SIGUSR1") then (SIGUSR1, true)
      else if bytes_eqb u (str "SIGUSR2") then (SIGUSR2, true)
      else (0, false)
  end.

(** *** parseStopTimeout *)

(** [for _, r := range s]: rune by rune. *)
Fixpoint isAllDigits_range (fuel : nat) (s : gostring) : bool :=
  match s with
  | [] => true
  | _ :: _ =>
      match fuel with
      | O => true
      | S fuel' =>
          let '(r, size) := DecodeRuneInString s in
          if (r <? 48) || (57 <? r) then false
          else isAllDigits_range fuel' (skipn (Z.to_nat size) s)
      end
  end.

Definition isAllDigits (s : gostring) : bool :=
  match s with
  | [] => false
  | _ => isAllDigits_range (length s) s
  end.

(** The parsed duration in nanoseconds, and what was logged. *)
Definition parseStopTimeout `{GoRuntime} (env : Environ) (def : Z)
    : Z * Trace :=
  let val := TrimSpace (Getenv env stopTimeoutEnv) in
  match val with
  | [] => (def, [])
  | _ =>
      let val := if isAllDigits val then val ++ str "s" else val in
      match ParseDuration val with
      | inl _ => (def, [Log (InvalidStopTimeout val def)])
      | inr d =>
          if d <? 0 then (def, [Log (InvalidStopTimeout val def)])
          else (d, [])
      end
  end.

Definition EffectiveTimeout `{GoRuntime} (env : Environ) : Z * Trace :=
  parseStopTimeout env defaultStopTimeout.

Definition IsPID1 (pid : Z) : bool := pid =? 1.

Definition ChildPIDEnv (env : Environ) : gostring * bool :=
  match LookupEnv env childEnvKey with
  | Some v => (v, true)
  | None => ([], false)
  end.

(** *** The reaper *)

(** What one [syscall.Wait4] call returns. *)
Inductive WaitResult :=
| WaitErr (errno : Z)
| Waited (pid : Z) (ws : WaitStatus).

Definition WNOHANG : Z := 1.

(** [reapUntilChildExit] against the results of its successive [Wait4]
    calls. [None]: the loop is still waiting when the results end. *)
Fixpoint reapUntilChildExit (childPID : Z) (rs : list WaitResult)
    : option Z * Trace :=
  match rs with
  | [] => (None, [Wait4 (-1) 0])
  | r :: rest =>
      let '(res, tr) :=
        match r with
        | WaitErr err =>
            if err =? EINTR then reapUntilChildExit childPID rest
            else if err =? ECHILD then (Some 0, [])
            else
              let '(res, tr) := reapUntilChildExit childPID rest in
              (res, Sleep (10 * Millisecond) :: tr)
        | Waited pid ws =>
            if pid =? childPID then
              if Exited ws then (Some (ExitStatus ws), [])
              else if Signaled ws then (Some (128 + Signal ws), [])
              else (Some 1, [])
            else reapUntilChildExit childPID rest
        end in
      (res, Wait4 (-1) 0 :: tr)
  end.

(** [drainZombiesNonBlock]: collects until a call fails or finds no
    child ready; past the listed results no child is ready. *)
Fixpoint drainZombiesNonBlock (rs : list WaitResult) : Trace :=
  Wait4 (-1) WNOHANG ::
  match rs with
  | [] => []
  | WaitErr _ :: _ => []
  | Waited pid _ :: rest =>
      if pid <=? 0 then [] else drainZombiesNonBlock rest
  end.

(** *** runAsInit *)

(** The variables the supervisor loop changes. *)
Record LoopVars := {
  startOnce : bool;        (** [startOnce] has run its function *)
  killTimer : option Z     (** the timer and the duration it was set to *)
}.

(** Statements of the loop: they read and write [LoopVars] and act on
    the outside world. *)
Definition M (A : Type) : Type := LoopVars -> A * LoopVars * Trace.

Definition ret {A} (a : A) : M A := fun v => (a, v, []).

Definition bind {A B} (m : M A) (k : A -> M B) : M B :=
  fun v =>
    let '(a, v1, t1) := m v in
    let '(b, v2, t2) := k a v1 in
    (b, v2, t1 ++ t2).

Definition emit (e : Effect) : M unit := fun v => (tt, v, [e]).

Definition get_killTimer : M (option Z) := fun v => (killTimer v, v, []).

Definition set_killTimer (t : option Z) : M unit :=
  fun v => (tt, {| startOnce := startOnce v; killTimer := t |}, []).

Definition when (b : bool) (m : M unit) : M unit :=
  if b then m else ret tt.

Notation "x <- m ;; k" := (bind m (fun x => k))
  (at level 61, m at next level, right associativity).
Notation "m ;;; k" := (bind m (fun _ => k))
  (at level 61, right associativity).

(** [sync.Once.Do]. *)
Definition Once_Do (f : M unit) : M unit :=
  fun v =>
    if startOnce v then (tt, v, [])
    else
      let '(_, v1, t1) := f v in
      (tt, {| startOnce := true; killTimer := killTimer v1 |}, t1).

Section Loop.

Context `{GoRuntime}.
Variable childPID : Z.
Variable stopTimeout : Z.

Definition startKillTimer : M unit :=
  t <- get_killTimer ;;
  match t with
  | None =>
      emit (NewTimer stopTimeout) ;;;
      set_killTimer (Some stopTimeout)
  | Some _ =>
      emit TimerStop ;;;
      emit (TimerReset stopTimeout) ;;;
      set_killTimer (Some stopTimeout)
  end.

(** [case s := <-allSig]. *)
Definition onSignal (s : os_Signal) : M unit :=
  if os_Signal_eqb s (SyscallSignal SIGCHLD) then ret tt
  else
    (let '(sig, ok) := toSyscallSignal s in
     when ok (emit (Kill (- childPID) sig))) ;;;
    when (isTerminateSignal s) (Once_Do startKillTimer).

(** [killTimerC]: the channel of the timer, or for a nil timer a channel
    that never fires ([None]). *)
Definition killTimerC (t : option Z) : option Z :=
  match t with
  | None => None
  | Some d => Some d
  end.

(** What the supervisor can receive: the cases of its [select], and the
    receive from [done] that follows the forced kill. The channel
    [allSig] is filled by [signal.Notify], which relays every signal as
    a [syscall.Signal]. *)
Inductive Event :=
| SelDone (code : Z) (sweep : list WaitResult)
| SelSignal (n : Z)
| SelKillTimer
| DoneAfterKill (code : Z).

Inductive Proc :=
| Selecting (v : LoopVars)
| AwaitingDone (v : LoopVars)
| Terminated (code : Z).

(** One receive of the supervisor; [None] when it cannot happen in this
    state (a nil timer never fires, an exited process receives nothing). *)
Definition step (p : Proc) (ev : Event) : option (Proc * Trace) :=
  match p, ev with
  | Selecting v, SelDone code sweep =>
      Some (Terminated code,
            Sleep (50 * Millisecond) :: drainZombiesNonBlock sweep
            ++ [Exit code])
  | Selecting v, SelSignal n =>
      let '(_, v', tr) := onSignal (SyscallSignal n) v in
      Some (Selecting v', tr)
  | Selecting v, SelKillTimer =>
      match killTimerC (killTimer v) with
      | None => None
      | Some _ => Some (AwaitingDone v, [Kill (- childPID) SIGKILL])
      end
  | AwaitingDone v, DoneAfterKill code => Some (Terminated code, [Exit code])
  | _, _ => None
  end.

Fixpoint run (p : Proc) (evs : list Event) : option (Proc * Trace) :=
  match evs with
  | [] => Some (p, [])
  | ev :: evs' =>
      match step p ev with
      | None => None
      | Some (p', tr) =>
          match run p' evs' with
          | None => None
          | Some (p'', tr') => Some (p'', tr ++ tr')
          end
      end
  end.

End Loop.

(** What [cmd.Start] returns. *)
Inductive StartResult :=
| StartFailed (err : gostring)
| Started (pid : Z).

Definition initialVars : LoopVars :=
  {| startOnce := false; killTimer := None |}.

(** [runAsInit] up to its loop: either the process is gone ([None]), or
    the loop starts with the child's pid and the parsed stop timeout. *)
Definition runAsInit `{GoRuntime} (env : Environ) (start : StartResult)
    : Trace * option (Z * Z * Proc) :=
  let spawn := StartChild (childEnvKey, childEnvVal) true in
  match start with
  | StartFailed err => (spawn :: log_Fatalf (FailedToStartChild err), None)
  | Started pid =>
      let '(stopTimeout, logged) := parseStopTimeout env defaultStopTimeout in
      (spawn :: logged, Some (pid, stopTimeout, Selecting initialVars))
  end.

End Psi.

(** ** The test helpers: [psi_test.go] *)

Module PsiTest.
Import Go.

(** [out = append(out, e)] while [out] shares the array of [env]: the
    element at index [len(out)] of the array is overwritten. *)
Fixpoint store (j : nat) (e : gostring) (arr : list gostring)
    : list gostring :=
  match arr with
  | [] => []
  | x :: rest =>
      match j with
      | O => e :: rest
      | S j' => x :: store j' e rest
      end
  end.

(** The loop of [filterEnv]: [i] is the index the range has reached,
    [j] the length of [out], [arr] the array that [env] and [out] share,
    [k] the number of elements still to visit. *)
Fixpoint filterEnv_loop (prefix : gostring) (k i j : nat)
    (arr : list gostring) : nat * list gostring :=
  match k with
  | O => (j, arr)
  | S k' =>
      let e := nth i arr [] in
      if HasPrefix e prefix then filterEnv_loop prefix k' (S i) j arr
      else filterEnv_loop prefix k' (S i) (S j) (store j e arr)
  end.

(** [filterEnv]: the returned copy of [out], and the array of [env] as
    the call leaves it. *)
Definition filterEnv (env : list gostring) (key : gostring)
    : list gostring * list gostring :=
  let prefix := key ++ str "=" in
  let '(j, arr) := filterEnv_loop prefix (length env) 0 0 env in
  (firstn j arr, arr).

End PsiTest.

Import Go Psi.

(** ** Notions used to state the properties *)

(** The marker as [Run] tests it: the variable holds the fixed value. *)
Definition marker_set (env : Environ) : bool :=
  bytes_eqb (Getenv env childEnvKey) childEnvVal.

(** The dispatch table of the specification. *)
Definition role_table (pid_is_1 marker : bool) : ProcessRole :=
  match pid_is_1, marker with
  | false, false => Direct
  | false, true => WorkerRole
  | true, false => Supervisor
  | true, true => WorkerRole
  end.

(** An entry function that returns 42 unless it sees a cancellation. *)
Definition returns42 : SubMain :=
  Poll (fun cancelled => if cancelled then Return 99 else Return 42).




Definition is_Exit (e : Effect) : bool :=
  match e with Exit _ => true | _ => false end.



Definition is_Kill (e : Effect) : bool :=
  match e with Kill _ _ => true | _ => false end.

(** The effects that start, stop or restart the shutdown countdown. *)
Definition is_timer (e : Effect) : bool :=
  match e with
  | NewTimer _ | TimerStop | TimerReset _ => true
  | _ => false
  end.

(** Terminate-class signal numbers: terminate, interrupt, quit, hangup. *)
Definition terminate_class (n : Z) : bool :=
  isTerminateSignal (SyscallSignal n).

(** Some terminate-class signal is among the received events. *)
Definition terminate_received (evs : list Event) : bool :=
  existsb (fun ev => match ev with
                     | SelSignal n => terminate_class n
                     | _ => false
                     end) evs.

(** The kills a sequence of received events calls for, in order: every
    signal but SIGCHLD goes to the child's process group, and the firing
    of the timer sends SIGKILL there. *)
Definition expected_kills (childPID : Z) (evs : list Event) : Trace :=
  flat_map (fun ev => match ev with
                      | SelSignal n =>
                          if n =? SIGCHLD then [] else [Kill (- childPID) n]
                      | SelKillTimer => [Kill (- childPID) SIGKILL]
                      | _ => []
                      end) evs.

(** The exit code [reapUntilChildExit] derives from the child's status. *)
Definition translated (ws : WaitStatus) : Z :=
  if Exited ws then ExitStatus ws
  else if Signaled ws then 128 + Signal ws
  else 1.

(** A wait result the reaper passes over: another process, or an error
    other than "no children". *)
Definition passed_over (childPID : Z) (r : WaitResult) : bool :=
  match r with
  | Waited pid _ => negb (pid =? childPID)
  | WaitErr err => negb (err =? ECHILD)
  end.

Definition is_reaped_other (childPID : Z) (r : WaitResult) : bool :=
  match r with
  | Waited pid _ => negb (pid =? childPID)
  | WaitErr _ => false
  end.

(** A runtime used to evaluate examples: fractions are computed exactly
    and names outside ASCII are left as they are. No property depends on
    it. *)
Definition exampleRuntime : GoRuntime :=
  {| fracNanos := fun f unit scale => f * unit / scale;
     mapUnicodeToUpper := fun s => s |}.

(** What arming the timer does to the outside world in state [v], and
    the loop variables once it is armed. *)
Definition arming (stopTimeout : Z) (v : LoopVars) : Trace :=
  match killTimer v with
  | None => [NewTimer stopTimeout]
  | Some _ => [TimerStop; TimerReset stopTimeout]
  end.

Definition armed (stopTimeout : Z) : LoopVars :=
  {| startOnce := true; killTimer := Some stopTimeout |}.

(** [utf8.DecodeRuneInString] as a function of the length of the string
    and of its first four bytes. *)
Definition decode_core (n s0 s1 s2 s3 : Z) : Z * Z :=
  if n <? 1 then (RuneError, 0) else
  let x := first s0 in
  if 0xF0 <=? x then
    ((if x =? 0xF1 then RuneError else s0), 1)
  else
    let sz := Z.land x 7 in
    let accept := acceptRanges (Z.shiftr x 4) in
    if n <? sz then (RuneError, 1) else
    if (s1 <? fst accept) || (snd accept <? s1) then (RuneError, 1) else
    if sz <=? 2 then
      (Z.lor (Z.shiftl (Z.land s0 0x1F) 6) (Z.land s1 0x3F), 2)
    else
    if (s2 <? 0x80) || (0xBF <? s2) then (RuneError, 1) else
    if sz <=? 3 then
      (Z.lor (Z.lor (Z.shiftl (Z.land s0 0x0F) 12)
                    (Z.shiftl (Z.land s1 0x3F) 6))
             (Z.land s2 0x3F), 3)
    else
    if (s3 <? 0x80) || (0xBF <? s3) then (RuneError, 1) else
    (Z.lor (Z.lor (Z.lor (Z.shiftl (Z.land s0 0x07) 18)
                         (Z.shiftl (Z.land s1 0x3F) 12))
                  (Z.shiftl (Z.land s2 0x3F) 6))
           (Z.land s3 0x3F), 4).

(** The cases of the table [first]. *)
Inductive first_case (b : Z) : Z -> Prop :=
| first_as : b < 0x80 -> first_case b 0xF0
| first_xx : 0x80 <= b < 0xC2 \/ 0xF5 <= b -> first_case b 0xF1
| first_s1 : 0xC2 <= b < 0xE0 -> first_case b 0x02
| first_s2 : b = 0xE0 -> first_case b 0x13
| first_s3 : 0xE1 <= b < 0xED \/ 0xEE <= b < 0xF0 -> first_case b 0x03
| first_s4 : b = 0xED -> first_case b 0x23
| first_s5 : b = 0xF0 -> first_case b 0x34
| first_s6 : 0xF1 <= b < 0xF4 -> first_case b 0x04
| first_s7 : b = 0xF4 -> first_case b 0x44.

(** The value of a string of decimal digits, most significant first. *)
Definition decimal_from (x : Z) (ds : gostring) : Z :=
  fold_left (fun acc c => acc * 10 + (byteZ c - 48)) ds x.

Definition decimal (ds : gostring) : Z := decimal_from 0 ds.

(** The string consists only of the bytes '0' to '9'. *)
Definition digits_only (s : gostring) : bool :=
  forallb (fun c => isDigit (byteZ c)) s.

(** The largest whole number of seconds a [time.Duration] holds. *)
Definition maxSeconds : Z := 2 ^ 63 / Second.

(** What follows a run of digits is not a digit. *)
Definition not_digit_next (rest : gostring) : Prop :=
  match rest with
  | [] => True
  | c :: _ => isDigit (byteZ c) = false
  end.

(** [e] is exactly the UTF-8 encoding of one rune that [unicode.IsSpace]
    accepts. *)
Definition space_chunk (e : gostring) : bool :=
  let '(r, size) := DecodeRuneInString e in
  (size =? len e) && IsSpace r.

(** A string made of whitespace runes only. *)
Definition whitespace (ws : gostring) : Prop :=
  exists chunks, forallb space_chunk chunks = true /\ ws = concat chunks.

(** A byte of ASCII that is not a space. *)
Definition solid (c : ascii) : bool :=
  (byteZ c <? RuneSelf) && negb (asciiSpace (byteZ c)).

(** A non-empty string that starts and ends with such a byte. *)
Definition solid_ends (core : gostring) : Prop :=
  exists f t init l,
    core = f :: t /\ core = init ++ [l]
    /\ solid f = true /\ solid l = true.

(** The environment in which the stop timeout is set to [v], and the
    warning that rejects it. *)
Definition timeoutEnv (v : gostring) : Environ :=
  Setenv emptyEnv stopTimeoutEnv v.

Definition rejected (val : gostring) (def : Z) : Z * Trace :=
  (def, [Log (InvalidStopTimeout val def)]).

(** A tab, and a no-break space, U+00A0, in UTF-8. *)
Definition tab : gostring := [ascii_of_nat 9].
Definition nbsp : gostring := [ascii_of_nat 194; ascii_of_nat 160].

(** A child that is ready to be collected without blocking. *)
Definition is_zombie (r : WaitResult) : bool :=
  match r with
  | Waited pid _ => 0 <? pid
  | WaitErr _ => false
  end.

(** What ends a sweep: an error, or no child ready. *)
Definition ends_sweep (rest : list WaitResult) : Prop :=
  match rest with
  | [] => True
  | r :: _ => is_zombie r = false
  end.

(** The result of the reaper, read off the first wait result it does
    not pass over. *)
Definition first_decisive (childPID : Z) (rs : list WaitResult)
    : option Z :=
  match find (fun r => negb (passed_over childPID r)) rs with
  | None => None
  | Some (WaitErr _) => Some 0
  | Some (Waited _ ws) => Some (translated ws)
  end.

Definition is_reaper_effect (e : Effect) : bool :=
  match e with
  | Wait4 pid options => (pid =? -1) && (options =? 0)
  | Sleep d => d =? 10 * Millisecond
  | _ => false
  end.

(** The signals a name can convert to. *)
Definition named_signals : list Z :=
  [SIGTERM; SIGINT; SIGQUIT; SIGHUP; SIGUSR1; SIGUSR2].

Definition is_ascii (s : gostring) : bool :=
  forallb (fun c => byteZ c <? RuneSelf) s.

Definition is_SelKillTimer (ev : Event) : bool :=
  match ev with SelKillTimer => true | _ => false end.

(** The event delivers the child's exit code on [done]. *)
Definition delivers (code : Z) (ev : Event) : Prop :=
  ev = DoneAfterKill code \/ exists sweep, ev = SelDone code sweep.

Definition maxDuration : Z := 2 ^ 63 - 1.

(** [n] calls of a statement of the loop, one after the other. *)
Fixpoint times (n : nat) (m : M unit) : M unit :=
  match n with
  | O => ret tt
  | S k => bind m (fun _ => times k m)
  end.

Definition is_NewTimer (e : Effect) : bool :=
  match e with NewTimer _ => true | _ => false end.

(** The entries [filterEnv] is meant to keep. *)
Definition kept (key : gostring) (e : gostring) : bool :=
  negb (HasPrefix e (key ++ str "=")).

(** * Properties *)

(** ** Byte strings *)

Lemma bytes_eqb_eq (a b : gostring) : bytes_eqb a b = true <-> a = b.
Proof.
  revert b; induction a as [|x a IH]; intros [|y b]; simpl;
    try (split; [discriminate | congruence]); try tauto.
  rewrite andb_true_iff, Ascii.eqb_eq, IH.
  split; [intros [-> ->]; reflexivity | intros E; inversion E; auto].
Qed.

Lemma bytes_eqb_neq (a b : gostring) : bytes_eqb a b = false <-> a <> b.
Proof.
  rewrite <- bytes_eqb_eq. destruct (bytes_eqb a b); split; congruence.
Qed.

Lemma byteZ_range c : 0 <= byteZ c < 256.
Proof.
  unfold byteZ. pose proof (N_ascii_bounded c). lia.
Qed.

Lemma len_nil : len [] = 0.
Proof. reflexivity. Qed.

Lemma len_cons c (s : gostring) : len (c :: s) = 1 + len s.
Proof. unfold len. cbn [length]. lia. Qed.

Lemma len_app (a b : gostring) : len (a ++ b) = len a + len b.
Proof. unfold len. rewrite length_app. lia. Qed.

Lemma len_nonneg (s : gostring) : 0 <= len s.
Proof. unfold len. lia. Qed.

(** ** UTF-8 decoding *)

Lemma Decode_core (s : gostring) :
  DecodeRuneInString s
  = decode_core (len s) (byte_at s 0) (byte_at s 1) (byte_at s 2)
      (byte_at s 3).
Proof. reflexivity. Qed.

Lemma first_cases b : first_case b (first b).
Proof.
  unfold first.
  repeat match goal with
         | |- context [?a <? ?c] => destruct (Z.ltb_spec a c)
         | |- context [?a =? ?c] => destruct (Z.eqb_spec a c)
         end; constructor; lia.
Qed.

Lemma Decode_ascii c (t : gostring) :
  byteZ c < RuneSelf -> DecodeRuneInString (c :: t) = (byteZ c, 1).
Proof.
  intros Hc. rewrite Decode_core. unfold decode_core.
  rewrite len_cons. pose proof (len_nonneg t).
  destruct (Z.ltb_spec (1 + len t) 1); [lia|].
  change (byte_at (c :: t) 0) with (byteZ c).
  destruct (first_cases (byteZ c)); unfold RuneSelf in Hc; try lia.
  reflexivity.
Qed.

Lemma lor_ge_pow2 a b k :
  0 <= a -> 0 <= b -> 0 <= k -> 2 ^ k <= a -> 2 ^ k <= Z.lor a b.
Proof.
  intros Ha Hb Hk Hka.
  assert (Hp : 0 < 2 ^ k) by (apply Z.pow_pos_nonneg; lia).
  assert (Hl : k <= Z.log2 (Z.lor a b)).
  { rewrite Z.log2_lor by assumption.
    apply Z.le_trans with (Z.log2 a); [|apply Z.le_max_l].
    apply Z.log2_le_pow2; lia. }
  apply Z.log2_le_pow2 in Hl; [exact Hl|].
  pose proof (Z.lor_nonneg a b) as [_ Hn].
  destruct (Z.eq_dec (Z.lor a b) 0) as [E|E]; [|lia].
  apply Z.lor_eq_0_iff in E. lia.
Qed.

Lemma land_mask_mod x k : 0 <= k -> Z.land x (2 ^ k - 1) = x mod 2 ^ k.
Proof.
  intros Hk. replace (2 ^ k - 1) with (Z.ones k).
  - apply Z.land_ones; assumption.
  - rewrite Z.ones_equiv. lia.
Qed.

Lemma lor_ge_128 a b : 0 <= a -> 0 <= b -> 128 <= a -> 128 <= Z.lor a b.
Proof. intros Ha Hb Hk. apply (lor_ge_pow2 a b 7); lia. Qed.

Ltac modlia := Z.div_mod_to_equations; lia.

Ltac lor_nonneg :=
  repeat (apply <- Z.lor_nonneg; split); modlia.

Ltac lor_ge128 :=
  first
    [ modlia
    | apply lor_ge_128; [lor_nonneg | lor_nonneg | lor_ge128]
    | rewrite Z.lor_comm;
      apply lor_ge_128; [lor_nonneg | lor_nonneg | lor_ge128] ].

(** Evaluation of the closed parts of a decoding once the case of the
    first byte is known. *)
Ltac eval_first :=
  repeat match goal with
         | |- context [Z.land (Zpos ?p) 7] =>
             let v := eval vm_compute in (Z.land (Zpos p) 7) in
             change (Z.land (Zpos p) 7) with v
         | |- context [Z.shiftr (Zpos ?p) 4] =>
             let v := eval vm_compute in (Z.shiftr (Zpos p) 4) in
             change (Z.shiftr (Zpos p) 4) with v
         | |- context [acceptRanges ?i] =>
             let v := eval vm_compute in (acceptRanges i) in
             change (acceptRanges i) with v
         | |- context [Zpos ?p <=? Zpos ?q] =>
             let v := eval vm_compute in (Zpos p <=? Zpos q) in
             change (Zpos p <=? Zpos q) with v
         | |- context [Zpos ?p =? Zpos ?q] =>
             let v := eval vm_compute in (Zpos p =? Zpos q) in
             change (Zpos p =? Zpos q) with v
         end;
  cbn [fst snd].

(** Case analysis on the comparisons of a decoding, keeping what each
    branch knows. *)
Ltac split_decode :=
  repeat match goal with
         | |- context [(?a <? ?b) || (?c <? ?d)] =>
             destruct (Z.ltb_spec a b); destruct (Z.ltb_spec c d);
             cbn [orb]
         | |- context [if ?a <? ?b then _ else _] =>
             destruct (Z.ltb_spec a b)
         end.

(** A string that starts outside ASCII never decodes to an ASCII rune. *)
Lemma decode_core_nonascii n s0 s1 s2 s3 r size :
  0x80 <= s0 < 256 -> 0 <= s1 -> 0 <= s2 -> 0 <= s3 ->
  decode_core n s0 s1 s2 s3 = (r, size) -> 0x80 <= r.
Proof.
  intros H0 H1 H2 H3. unfold decode_core.
  assert (M5 : Z.land s0 31 = s0 mod 32) by (apply (land_mask_mod s0 5); lia).
  assert (M4 : Z.land s0 15 = s0 mod 16) by (apply (land_mask_mod s0 4); lia).
  assert (M3 : Z.land s0 7 = s0 mod 8) by (apply (land_mask_mod s0 3); lia).
  assert (M1 : Z.land s1 63 = s1 mod 64) by (apply (land_mask_mod s1 6); lia).
  assert (M2 : Z.land s2 63 = s2 mod 64) by (apply (land_mask_mod s2 6); lia).
  assert (M6 : Z.land s3 63 = s3 mod 64) by (apply (land_mask_mod s3 6); lia).
  rewrite M5, M4, M3, M1, M2, M6, !Z.shiftl_mul_pow2 by lia.
  change (2 ^ 6) with 64. change (2 ^ 12) with 4096.
  change (2 ^ 18) with 262144.
  destruct (Z.ltb_spec n 1); [intros E; inversion E; unfold RuneError; lia|].
  destruct (first_cases s0) as [F|F|F|F|F|F|F|F|F]; try lia;
    eval_first; split_decode;
    intros E; inversion E; subst; unfold RuneError; lor_ge128.
Qed.

Lemma byte_at_nonneg s i : 0 <= byte_at s i.
Proof. unfold byte_at. pose proof (byteZ_range (nth (Z.to_nat i) s zero)). lia. Qed.

Lemma Decode_nonascii c (t : gostring) r size :
  RuneSelf <= byteZ c ->
  DecodeRuneInString (c :: t) = (r, size) -> 0x80 <= r.
Proof.
  intros Hc. rewrite Decode_core.
  change (byte_at (c :: t) 0) with (byteZ c).
  apply decode_core_nonascii; try apply byte_at_nonneg.
  pose proof (byteZ_range c). unfold RuneSelf in Hc. lia.
Qed.

(** ** Decoding at the two ends of a string *)

Lemma nth_byte_app_r (pre e : gostring) i :
  nth (length pre + i) (pre ++ e) zero = nth i e zero.
Proof.
  rewrite app_nth2 by lia. f_equal. lia.
Qed.

Lemma byte_at_app_r (pre e : gostring) i j :
  j = len pre + i -> 0 <= i -> byte_at (pre ++ e) j = byte_at e i.
Proof.
  intros -> Hi. unfold byte_at, len.
  replace (Z.to_nat (Z.of_nat (length pre) + i))
    with (length pre + Z.to_nat i)%nat by lia.
  rewrite nth_byte_app_r. reflexivity.
Qed.

Lemma byte_at_app_l (e rest : gostring) i :
  0 <= i < len e -> byte_at (e ++ rest) i = byte_at e i.
Proof.
  intros Hi. unfold byte_at, len in *. rewrite app_nth1 by lia. reflexivity.
Qed.

Lemma slice_all (s : gostring) : slice s 0 (len s) = s.
Proof.
  unfold slice, len. rewrite Z.sub_0_r, Nat2Z.id. cbn [Z.to_nat skipn].
  apply firstn_all.
Qed.

Lemma slice_app_r (pre e : gostring) a b a' b' :
  a = len pre + a' -> b = len pre + b' -> 0 <= a' ->
  slice (pre ++ e) a b = slice e a' b'.
Proof.
  intros -> -> Ha. unfold slice, len.
  replace (Z.to_nat (Z.of_nat (length pre) + a'))
    with (length pre + Z.to_nat a')%nat by lia.
  rewrite skipn_app, skipn_all2 by lia. cbn [app].
  replace (length pre + Z.to_nat a' - length pre)%nat with (Z.to_nat a') by lia.
  f_equal. lia.
Qed.

Lemma slice_app_l (a b : gostring) : slice (a ++ b) 0 (len a) = a.
Proof.
  unfold slice, len. rewrite Z.sub_0_r, Nat2Z.id. cbn [Z.to_nat skipn].
  rewrite firstn_app, firstn_all, Nat.sub_diag. cbn [firstn].
  apply app_nil_r.
Qed.

Lemma RuneStart_byte c :
  RuneStart (byteZ c) = negb ((128 <=? byteZ c) && (byteZ c <=? 191)).
Proof.
  destruct c as [[] [] [] [] [] [] [] []]; reflexivity.
Qed.

Lemma IsSpace_RuneError : IsSpace RuneError = false.
Proof. reflexivity. Qed.

(** What a decoding of two bytes or more tells about the bytes. *)
Lemma decode_core_shape n s0 s1 s2 s3 r size :
  decode_core n s0 s1 s2 s3 = (r, size) -> 2 <= size ->
  size <= n /\ size <= 4 /\ 0xC2 <= s0 /\ 0x80 <= s1 <= 0xBF
  /\ (3 <= size -> 0x80 <= s2 <= 0xBF)
  /\ (4 <= size -> 0x80 <= s3 <= 0xBF).
Proof.
  unfold decode_core.
  destruct (Z.ltb_spec n 1); [intros E; inversion E; lia|].
  destruct (first_cases s0) as [F|F|F|F|F|F|F|F|F];
    eval_first; split_decode; intros E; inversion E; subst; lia.
Qed.

(** A decoding that uses the whole string and does not fail is not
    changed by what follows the string. *)
Lemma decode_core_extend n n' s0 s1 s2 s3 s1' s2' s3' r :
  decode_core n s0 s1 s2 s3 = (r, n) -> r <> RuneError -> n <= n' ->
  (1 < n -> s1' = s1) -> (2 < n -> s2' = s2) -> (3 < n -> s3' = s3) ->
  decode_core n' s0 s1' s2' s3' = (r, n).
Proof.
  unfold decode_core. intros E Hr Hn E1 E2 E3. revert E.
  destruct (Z.ltb_spec n 1); [intros E; inversion E; lia|].
  destruct (Z.ltb_spec n' 1); [lia|].
  destruct (first_cases s0) as [F|F|F|F|F|F|F|F|F]; eval_first;
    try (intros E; inversion E; subst; congruence);
    split_decode; intros E; inversion E; subst;
    try congruence; try lia;
    try rewrite E1 in * by lia; try rewrite E2 in * by lia;
    try rewrite E3 in * by lia; try lia; try reflexivity.
Qed.

Lemma Decode_whole_app (e rest : gostring) r :
  DecodeRuneInString e = (r, len e) -> r <> RuneError ->
  DecodeRuneInString (e ++ rest) = (r, len e).
Proof.
  intros Hd Hr. destruct e as [|c e].
  { cbv in Hd. inversion Hd. subst r. contradiction Hr. reflexivity. }
  rewrite Decode_core in *.
  change (byte_at ((c :: e) ++ rest) 0) with (byte_at (c :: e) 0).
  apply (decode_core_extend _ _ _ _ _ _ _ _ _ _ Hd Hr).
  - rewrite len_app. pose proof (len_nonneg rest). lia.
  - intros. apply byte_at_app_l. lia.
  - intros. apply byte_at_app_l. lia.
  - intros. apply byte_at_app_l. lia.
Qed.

Lemma Decode_single c r :
  DecodeRuneInString [c] = (r, 1) -> r <> RuneError ->
  byteZ c < RuneSelf /\ r = byteZ c.
Proof.
  intros Hd Hr. destruct (Z.ltb_spec (byteZ c) RuneSelf) as [Hc|Hc].
  - rewrite Decode_ascii in Hd by assumption. inversion Hd. auto.
  - exfalso. revert Hd. rewrite Decode_core.
    change (byte_at [c] 0) with (byteZ c). change (len [c]) with 1.
    unfold decode_core, RuneSelf in *.
    destruct (first_cases (byteZ c)) as [F|F|F|F|F|F|F|F|F]; eval_first;
      cbn; intros E; inversion E; subst; try lia; congruence.
Qed.

Ltac byte_cond :=
  repeat match goal with
         | |- context [if ?a <? ?b then _ else _] =>
             destruct (Z.ltb_spec a b); try lia
         | |- context [if ?a =? ?b then _ else _] =>
             destruct (Z.eqb_spec a b); try lia
         end.

Lemma RuneStart_cont c :
  128 <= byteZ c <= 191 -> RuneStart (byteZ c) = false.
Proof.
  intros Hc. rewrite RuneStart_byte.
  destruct (Z.leb_spec 128 (byteZ c)); [|lia].
  destruct (Z.leb_spec (byteZ c) 191); [reflexivity | lia].
Qed.

Lemma RuneStart_lead c : 192 <= byteZ c -> RuneStart (byteZ c) = true.
Proof.
  intros Hc. rewrite RuneStart_byte.
  destruct (Z.leb_spec (byteZ c) 191); [lia|]. rewrite andb_false_r.
  reflexivity.
Qed.

Lemma lastRuneStart_found fuel s start lim :
  lim <= start -> RuneStart (byte_at s start) = true ->
  lastRuneStart (S fuel) s start lim = start.
Proof.
  intros Hl Hr. cbn [lastRuneStart]. rewrite Hr.
  destruct (Z.ltb_spec start lim); [lia | reflexivity].
Qed.

Lemma lastRuneStart_skip fuel s start lim :
  lim <= start -> RuneStart (byte_at s start) = false ->
  lastRuneStart (S fuel) s start lim = lastRuneStart fuel s (start - 1) lim.
Proof.
  intros Hl Hr. cbn [lastRuneStart]. rewrite Hr.
  destruct (Z.ltb_spec start lim); [lia | reflexivity].
Qed.

(** The last rune of a string that ends with a whole encoding. *)
Lemma DecodeLast_whole_app (pre e : gostring) r :
  DecodeRuneInString e = (r, len e) -> r <> RuneError ->
  DecodeLastRuneInString (pre ++ e) = (r, len e).
Proof.
  intros Hd Hr. pose proof (len_nonneg pre) as Hp.
  destruct e as [|c0 [|c1 e]].
  - cbv in Hd. inversion Hd. subst r. contradiction Hr. reflexivity.
  - destruct (Decode_single c0 r Hd Hr) as [Hc ->].
    unfold DecodeLastRuneInString. rewrite len_app.
    change (len [c0]) with 1. unfold RuneSelf in *.
    rewrite (byte_at_app_r pre [c0] 0) by lia.
    change (byte_at [c0] 0) with (byteZ c0). byte_cond. reflexivity.
  - pose proof Hd as Hs. rewrite Decode_core in Hs.
    apply decode_core_shape in Hs;
      [|unfold len; cbn [length]; lia].
    destruct Hs as [_ [H4 [H0 [H1 [H2 H3]]]]].
    change (byte_at (c0 :: c1 :: e) 0) with (byteZ c0) in H0.
    change (byte_at (c0 :: c1 :: e) 1) with (byteZ c1) in H1.
    destruct e as [|c2 [|c3 [|c4 e]]].
    + (* two bytes *)
      unfold DecodeLastRuneInString. rewrite len_app.
      change (len [c0; c1]) with 2 in *. unfold RuneSelf, UTFMax.
      rewrite (byte_at_app_r pre [c0; c1] 1) by lia.
      change (byte_at [c0; c1] 1) with (byteZ c1).
      set (st := lastRuneStart _ _ _ _).
      assert (Es : st = len pre).
      { subst st. rewrite lastRuneStart_found; [lia | lia |].
        rewrite (byte_at_app_r pre [c0; c1] 0 _) by lia.
        change (byte_at [c0; c1] 0) with (byteZ c0).
        apply RuneStart_lead. lia. }
      rewrite Es. clear st Es. byte_cond.
      rewrite (slice_app_r pre [c0; c1] _ _ 0 2) by lia.
      change (slice [c0; c1] 0 2) with [c0; c1]. rewrite Hd.
      rewrite Z.eqb_refl. reflexivity.
    + (* three bytes *)
      specialize (H2 ltac:(unfold len; cbn [length]; lia)).
      change (byte_at [c0; c1; c2] 2) with (byteZ c2) in H2.
      unfold DecodeLastRuneInString. rewrite len_app.
      change (len [c0; c1; c2]) with 3 in *. unfold RuneSelf, UTFMax.
      rewrite (byte_at_app_r pre [c0; c1; c2] 2) by lia.
      change (byte_at [c0; c1; c2] 2) with (byteZ c2).
      set (st := lastRuneStart _ _ _ _).
      assert (Es : st = len pre).
      { subst st. rewrite lastRuneStart_skip; [|lia|].
        - rewrite lastRuneStart_found; [lia | lia |].
          rewrite (byte_at_app_r pre [c0; c1; c2] 0 _) by lia.
          change (byte_at [c0; c1; c2] 0) with (byteZ c0).
          apply RuneStart_lead. lia.
        - rewrite (byte_at_app_r pre [c0; c1; c2] 1 _) by lia.
 change (byte_at [c0; c1; c2] 1) with (byteZ c1).
 apply RuneStart_cont. lia. }
      rewrite Es. clear st Es. byte_cond.
      rewrite (slice_app_r pre [c0; c1; c2] _ _ 0 3) by lia.
      change (slice [c0; c1; c2] 0 3) with [c0; c1; c2]. rewrite Hd.
      rewrite Z.eqb_refl. reflexivity.
    + (* four bytes *)
      specialize (H2 ltac:(unfold len; cbn [length]; lia)).
      specialize (H3 ltac:(unfold len; cbn [length]; lia)).
      change (byte_at [c0; c1; c2; c3] 2) with (byteZ c2) in H2.
      change (byte_at [c0; c1; c2; c3] 3) with (byteZ c3) in H3.
      unfold DecodeLastRuneInString. rewrite len_app.
      change (len [c0; c1; c2; c3]) with 4 in *. unfold RuneSelf, UTFMax.
      rewrite (byte_at_app_r pre [c0; c1; c2; c3] 3) by lia.
      change (byte_at [c0; c1; c2; c3] 3) with (byteZ c3).
      set (st := lastRuneStart _ _ _ _).
      assert (Es : st = len pre).
      { subst st. rewrite lastRuneStart_skip; [|lia|].
        - rewrite lastRuneStart_skip; [|lia|].
          + rewrite lastRuneStart_found; [lia | lia |].
            rewrite (byte_at_app_r pre [c0; c1; c2; c3] 0 _) by lia.
            change (byte_at [c0; c1; c2; c3] 0) with (byteZ c0).
            apply RuneStart_lead. lia.
          + rewrite (byte_at_app_r pre [c0; c1; c2; c3] 1 _) by lia.
 change (byte_at [c0; c1; c2; c3] 1) with (byteZ c1).
 apply RuneStart_cont. lia.
        - rewrite (byte_at_app_r pre [c0; c1; c2; c3] 2 _) by lia.
 change (byte_at [c0; c1; c2; c3] 2) with (byteZ c2).
 apply RuneStart_cont. lia. }
      rewrite Es. clear st Es. byte_cond.
      rewrite (slice_app_r pre [c0; c1; c2; c3] _ _ 0 4) by lia.
      change (slice [c0; c1; c2; c3] 0 4) with [c0; c1; c2; c3]. rewrite Hd.
      rewrite Z.eqb_refl. reflexivity.
    + exfalso. unfold len in H4. cbn [length] in H4. lia.
Qed.

(** ** Trimming *)

Lemma space_chunk_inv e :
  space_chunk e = true ->
  exists r, DecodeRuneInString e = (r, len e) /\ IsSpace r = true
            /\ r <> RuneError.
Proof.
  unfold space_chunk. destruct (DecodeRuneInString e) as [r size].
  rewrite andb_true_iff, Z.eqb_eq. intros [-> Hs].
  exists r. repeat split; auto. intros ->. discriminate.
Qed.

Lemma asciiSpace_IsSpace r : r < RuneSelf -> IsSpace r = asciiSpace r.
Proof.
  unfold RuneSelf, IsSpace, asciiSpace. intros Hr.
  destruct (Z.leb_spec r 255); [|lia].
  destruct (Z.eqb_spec r 133); [lia|]. destruct (Z.eqb_spec r 160); [lia|].
  rewrite !orb_false_r. reflexivity.
Qed.

Lemma solid_inv c :
  solid c = true ->
  byteZ c < RuneSelf /\ asciiSpace (byteZ c) = false
  /\ IsSpace (byteZ c) = false.
Proof.
  unfold solid. rewrite andb_true_iff, Z.ltb_lt, negb_true_iff.
  intros [Hc Hs]. rewrite asciiSpace_IsSpace by assumption. auto.
Qed.

(** A whitespace chunk is one ASCII space byte, or starts and ends with
    bytes outside ASCII. *)
Lemma space_chunk_cases e :
  space_chunk e = true ->
  (exists c, e = [c] /\ byteZ c < RuneSelf /\ asciiSpace (byteZ c) = true)
  \/ (exists c0 t init l,
        e = c0 :: t /\ e = init ++ [l]
        /\ RuneSelf <= byteZ c0 /\ RuneSelf <= byteZ l).
Proof.
  intros He. destruct (space_chunk_inv e He) as [r [Hd [Hs Hr]]].
  destruct e as [|c0 [|c1 e]].
  - cbv in Hd. inversion Hd. subst r. discriminate.
  - left. destruct (Decode_single c0 r Hd Hr) as [Hc ->].
    exists c0. rewrite asciiSpace_IsSpace in Hs by assumption. auto.
  - right. pose proof Hd as Hsh. rewrite Decode_core in Hsh.
    apply decode_core_shape in Hsh; [|unfold len; cbn [length]; lia].
    destruct Hsh as [_ [H4 [H0 [H1 [H2 H3]]]]].
    change (byte_at (c0 :: c1 :: e) 0) with (byteZ c0) in H0.
    change (byte_at (c0 :: c1 :: e) 1) with (byteZ c1) in H1.
    unfold RuneSelf.
    destruct e as [|c2 [|c3 [|c4 e]]].
    + exists c0, [c1], [c0], c1. repeat split; lia.
    + specialize (H2 ltac:(unfold len; cbn [length]; lia)).
      change (byte_at [c0; c1; c2] 2) with (byteZ c2) in H2.
      exists c0, [c1; c2], [c0; c1], c2. repeat split; lia.
    + specialize (H3 ltac:(unfold len; cbn [length]; lia)).
      change (byte_at [c0; c1; c2; c3] 3) with (byteZ c3) in H3.
      exists c0, [c1; c2; c3], [c0; c1; c2], c3. repeat split; lia.
    + exfalso. unfold len in H4. cbn [length] in H4. lia.
Qed.

Lemma space_chunk_nonempty e : space_chunk e = true -> (1 <= length e)%nat.
Proof.
  intros He. destruct (space_chunk_cases e He)
    as [[c [-> _]] | [c0 [t [_ [_ [-> _]]]]]]; cbn [length]; lia.
Qed.

Lemma chunks_length chunks :
  forallb space_chunk chunks = true ->
  (length chunks <= length (concat chunks))%nat.
Proof.
  induction chunks as [|e chs IH]; cbn [forallb concat length]; [lia|].
  rewrite andb_true_iff. intros [He Hc].
  rewrite length_app. pose proof (space_chunk_nonempty e He).
  specialize (IH Hc). lia.
Qed.

Lemma skipn_len_app (e rest : gostring) :
  skipn (Z.to_nat (len e)) (e ++ rest) = rest.
Proof.
  unfold len. rewrite Nat2Z.id, skipn_app, skipn_all, Nat.sub_diag.
  reflexivity.
Qed.

(** [indexFunc] passes over whitespace and stops at a solid byte. *)
Lemma indexFunc_from_ws chunks : forall fuel i f t,
  forallb space_chunk chunks = true -> solid f = true ->
  (length chunks < fuel)%nat ->
  indexFunc_from fuel i (concat chunks ++ f :: t) IsSpace false
  = i + len (concat chunks).
Proof.
  induction chunks as [|e chs IH]; intros fuel i f t Hc Hf Hfuel.
  - destruct fuel as [|fuel]; [cbn [length] in Hfuel; lia|].
    destruct (solid_inv f Hf) as [Hlt [_ Hns]].
    cbn [concat app indexFunc_from]. rewrite Decode_ascii by assumption.
    rewrite Hns. cbn [Bool.eqb]. rewrite len_nil. lia.
  - cbn [forallb] in Hc. apply andb_true_iff in Hc. destruct Hc as [He Hc].
    destruct fuel as [|fuel]; [cbn [length] in Hfuel; lia|].
    destruct (space_chunk_inv e He) as [r [Hd [Hs Hr]]].
    pose proof (space_chunk_nonempty e He) as Hne.
    cbn [concat]. rewrite <- app_assoc.
    destruct e as [|c e]; [cbn [length] in Hne; lia|].
    cbn [indexFunc_from app].
    change (c :: e ++ concat chs ++ f :: t)
      with ((c :: e) ++ (concat chs ++ f :: t)).
    rewrite (Decode_whole_app (c :: e) _ r Hd Hr), Hs. cbn [Bool.eqb].
    rewrite skipn_len_app, IH; try assumption; [|cbn [length] in Hfuel; lia].
    change (c :: e ++ concat chs) with ((c :: e) ++ concat chs).
    rewrite len_app. lia.
Qed.

Lemma indexFunc_from_all_ws chunks : forall fuel i,
  forallb space_chunk chunks = true ->
  indexFunc_from fuel i (concat chunks) IsSpace false = -1.
Proof.
  induction chunks as [|e chs IH]; intros fuel i Hc.
  - destruct fuel; reflexivity.
  - cbn [forallb] in Hc. apply andb_true_iff in Hc. destruct Hc as [He Hc].
    destruct fuel as [|fuel]; [reflexivity|].
    destruct (space_chunk_inv e He) as [r [Hd [Hs Hr]]].
    pose proof (space_chunk_nonempty e He) as Hne.
    cbn [concat].
    destruct e as [|c e]; [cbn [length] in Hne; lia|].
    cbn [indexFunc_from app].
    change (c :: e ++ concat chs) with ((c :: e) ++ concat chs).
    rewrite (Decode_whole_app (c :: e) _ r Hd Hr), Hs. cbn [Bool.eqb].
    rewrite skipn_len_app. apply IH. assumption.
Qed.

Lemma concat_snoc (chs : list gostring) e :
  concat (chs ++ [e]) = concat chs ++ e.
Proof. rewrite concat_app. cbn [concat]. rewrite app_nil_r. reflexivity. Qed.

Lemma forallb_snoc {A} (f : A -> bool) l x :
  forallb f (l ++ [x]) = true -> forallb f l = true /\ f x = true.
Proof.
  rewrite forallb_app. cbn [forallb]. rewrite andb_true_r.
  apply andb_true_iff.
Qed.

(** [lastIndexFunc] passes over whitespace from the end and stops at a
    solid byte. *)
Lemma lastIndexFunc_from_ws chunks : forall fuel init l tail,
  forallb space_chunk chunks = true -> solid l = true ->
  (length chunks < fuel)%nat ->
  lastIndexFunc_from fuel (len (init ++ [l]) + len (concat chunks))
    ((init ++ [l]) ++ concat chunks ++ tail) IsSpace false
  = len init.
Proof.
  induction chunks as [|e chs IH] using rev_ind;
    intros fuel init l tail Hc Hl Hfuel.
  - destruct fuel as [|fuel]; [cbn [length] in Hfuel; lia|].
    destruct (solid_inv l Hl) as [Hlt [_ Hns]].
    cbn [concat app lastIndexFunc_from]. rewrite len_nil, Z.add_0_r.
    rewrite len_app. change (len [l]) with 1.
    pose proof (len_nonneg init).
    destruct (Z.ltb_spec 0 (len init + 1)); [|lia].
    replace (len init + 1) with (len (init ++ [l]))
      by (rewrite len_app; reflexivity).
    rewrite slice_app_l.
    rewrite (DecodeLast_whole_app init [l] (byteZ l)).
    + rewrite Hns. cbn [Bool.eqb]. rewrite len_app.
      change (len [l]) with 1. lia.
    + apply Decode_ascii. assumption.
    + unfold RuneError, RuneSelf in *. lia.
  - apply forallb_snoc in Hc. destruct Hc as [Hc He].
    rewrite length_app in Hfuel. cbn [length] in Hfuel.
    destruct fuel as [|fuel]; [lia|].
    destruct (space_chunk_inv e He) as [r [Hd [Hs Hr]]].
    pose proof (space_chunk_nonempty e He) as Hne.
    rewrite concat_snoc.
    pose proof (len_nonneg (init ++ [l])).
    pose proof (len_nonneg (concat chs)).
    assert (Hle : 1 <= len e) by (unfold len; lia).
    set (whole := ((init ++ [l]) ++ concat chs) ++ e).
    assert (Ei : len (init ++ [l]) + len (concat chs ++ e) = len whole)
      by (unfold whole; rewrite !len_app; lia).
    assert (Ew : (init ++ [l]) ++ (concat chs ++ e) ++ tail = whole ++ tail)
      by (unfold whole; rewrite <- !app_assoc; reflexivity).
    assert (Hw : 1 <= len whole)
      by (unfold whole; rewrite !len_app; pose proof (len_nonneg init);
          pose proof (len_nonneg [l]); lia).
    rewrite Ei, Ew. cbn [lastIndexFunc_from].
    destruct (Z.ltb_spec 0 (len whole)); [|lia].
    rewrite slice_app_l. unfold whole at 1.
    rewrite (DecodeLast_whole_app _ e r Hd Hr), Hs. cbn [Bool.eqb].
    replace (len whole - len e)
      with (len (init ++ [l]) + len (concat chs))
      by (unfold whole; rewrite !len_app; lia).
    replace (whole ++ tail)
      with ((init ++ [l]) ++ concat chs ++ (e ++ tail))
      by (unfold whole; rewrite <- !app_assoc; reflexivity).
    apply IH; try assumption. lia.
Qed.

Lemma TrimLeftFunc_ws chunks f t :
  forallb space_chunk chunks = true -> solid f = true ->
  TrimLeftFunc (concat chunks ++ f :: t) IsSpace = f :: t.
Proof.
  intros Hc Hf. unfold TrimLeftFunc, indexFunc.
  rewrite indexFunc_from_ws; try assumption.
  - pose proof (len_nonneg (concat chunks)).
    destruct (Z.eqb_spec (0 + len (concat chunks)) (-1)); [lia|].
    rewrite (slice_app_r _ _ _ _ 0 (len (f :: t))).
    + apply slice_all.
    + lia.
    + rewrite len_app. reflexivity.
    + lia.
  - rewrite length_app. cbn [length].
    pose proof (chunks_length chunks Hc). lia.
Qed.

Lemma TrimRightFunc_ws chunks init l :
  forallb space_chunk chunks = true -> solid l = true ->
  TrimRightFunc ((init ++ [l]) ++ concat chunks) IsSpace = init ++ [l].
Proof.
  intros Hc Hl. unfold TrimRightFunc, lastIndexFunc.
  rewrite len_app.
  replace (lastIndexFunc_from _ _ _ _ _) with (len init).
  - pose proof (len_nonneg init).
    destruct (Z.leb_spec 0 (len init)); [|lia]. cbn [andb].
    rewrite <- app_assoc.
    rewrite (byte_at_app_r init ([l] ++ concat chunks) 0) by lia.
    change (byte_at ([l] ++ concat chunks) 0) with (byteZ l).
    destruct (solid_inv l Hl) as [Hlt _].
    destruct (Z.leb_spec RuneSelf (byteZ l)); [lia|].
    rewrite app_assoc.
    replace (len init + 1) with (len (init ++ [l]))
      by (rewrite len_app; reflexivity).
    apply slice_app_l.
  - symmetry.
    pose proof (lastIndexFunc_from_ws chunks
                  (length ((init ++ [l]) ++ concat chunks)) init l []
                  Hc Hl) as E.
    rewrite app_nil_r in E. apply E.
    rewrite !length_app. cbn [length].
    pose proof (chunks_length chunks Hc). lia.
Qed.

Lemma TrimFunc_ws before after core :
  forallb space_chunk before = true -> forallb space_chunk after = true ->
  solid_ends core ->
  TrimFunc (concat before ++ core ++ concat after) IsSpace = core.
Proof.
  intros Hb Ha [f [t [init [l [E1 [E2 [Hf Hl]]]]]]].
  unfold TrimFunc. rewrite E1 at 1. cbn [app].
  rewrite TrimLeftFunc_ws by assumption.
  change (f :: t ++ concat after) with ((f :: t) ++ concat after).
  rewrite <- E1, E2. apply TrimRightFunc_ws; assumption.
Qed.

Lemma TrimFunc_all_ws chunks :
  forallb space_chunk chunks = true ->
  TrimFunc (concat chunks) IsSpace = [].
Proof.
  intros Hc. unfold TrimFunc, TrimLeftFunc, indexFunc.
  rewrite indexFunc_from_all_ws by assumption. reflexivity.
Qed.

Lemma TrimSpace_stop_ws chunks : forall init l,
  forallb space_chunk chunks = true -> solid l = true ->
  TrimSpace_stop (rev ((init ++ [l]) ++ concat chunks)) = init ++ [l].
Proof.
  induction chunks as [|e chs IH] using rev_ind; intros init l Hc Hl.
  - cbn [concat]. rewrite app_nil_r, rev_app_distr. cbn [rev app].
    destruct (solid_inv l Hl) as [Hlt [Hns _]].
    cbn [TrimSpace_stop].
    destruct (Z.leb_spec RuneSelf (byteZ l)); [lia|]. rewrite Hns.
    change (l :: rev init) with ([l] ++ rev init).
    rewrite rev_app_distr, rev_involutive. reflexivity.
  - pose proof Hc as Hall.
    apply forallb_snoc in Hc. destruct Hc as [Hc He].
    rewrite concat_snoc.
    destruct (space_chunk_cases e He)
      as [[c [-> [Hlt Hsp]]] | [c0 [t [init' [l' [_ [E [_ Hge]]]]]]]].
    + rewrite app_assoc, rev_app_distr. cbn [rev app TrimSpace_stop].
      destruct (Z.leb_spec RuneSelf (byteZ c)); [lia|]. rewrite Hsp.
      apply IH; assumption.
    + rewrite <- concat_snoc.
      assert (Er : rev ((init ++ [l]) ++ concat (chs ++ [e]))
                   = l' :: rev ((init ++ [l]) ++ concat chs ++ init')).
      { rewrite concat_snoc, E, !app_assoc, rev_app_distr.
        reflexivity. }
      rewrite Er. cbn [TrimSpace_stop].
      destruct (Z.leb_spec RuneSelf (byteZ l')); [|lia].
      rewrite <- Er, rev_involutive.
      apply TrimRightFunc_ws; assumption.
Qed.

(** [strings.TrimSpace] removes the whitespace around a string that
    starts and ends with solid bytes, and nothing else. *)
Lemma TrimSpace_ws before : forall after core,
  forallb space_chunk before = true -> forallb space_chunk after = true ->
  solid_ends core ->
  TrimSpace (concat before ++ core ++ concat after) = core.
Proof.
  induction before as [|e chs IH]; intros after core Hb Ha Hcore.
  - destruct Hcore as [f [t [init [l [E1 [E2 [Hf Hl]]]]]]].
    cbn [concat app]. rewrite E1 at 1. cbn [app TrimSpace].
    destruct (solid_inv f Hf) as [Hlt [Hns _]].
    destruct (Z.leb_spec RuneSelf (byteZ f)); [lia|]. rewrite Hns.
    change (f :: t ++ concat after) with ((f :: t) ++ concat after).
    rewrite <- E1, E2. apply TrimSpace_stop_ws; assumption.
  - pose proof Hb as Hall. cbn [forallb] in Hb.
    apply andb_true_iff in Hb. destruct Hb as [He Hb].
    destruct (space_chunk_cases e He)
      as [[c [-> [Hlt Hsp]]] | [c0 [t [init' [l' [E [_ [Hge _]]]]]]]].
    + cbn [concat app TrimSpace].
      destruct (Z.leb_spec RuneSelf (byteZ c)); [lia|]. rewrite Hsp.
      apply IH; assumption.
    + assert (Es : concat (e :: chs) ++ core ++ concat after
                   = c0 :: t ++ concat chs ++ core ++ concat after).
      { cbn [concat]. rewrite E, <- app_assoc. reflexivity. }
      rewrite Es. cbn [TrimSpace].
      destruct (Z.leb_spec RuneSelf (byteZ c0)); [|lia].
      rewrite <- Es. apply TrimFunc_ws; assumption.
Qed.

Lemma TrimSpace_all_ws chunks :
  forallb space_chunk chunks = true -> TrimSpace (concat chunks) = [].
Proof.
  induction chunks as [|e chs IH]; intros Hc; [reflexivity|].
  pose proof Hc as Hall. cbn [forallb] in Hc.
  apply andb_true_iff in Hc. destruct Hc as [He Hc].
  destruct (space_chunk_cases e He)
    as [[c [-> [Hlt Hsp]]] | [c0 [t [init' [l' [E [_ [Hge _]]]]]]]].
  - cbn [concat app TrimSpace].
    destruct (Z.leb_spec RuneSelf (byteZ c)); [lia|]. rewrite Hsp.
    apply IH; assumption.
  - assert (Es : concat (e :: chs) = c0 :: t ++ concat chs).
    { cbn [concat]. rewrite E. reflexivity. }
    rewrite Es. cbn [TrimSpace].
    destruct (Z.leb_spec RuneSelf (byteZ c0)); [|lia].
    rewrite <- Es. apply TrimFunc_all_ws; assumption.
Qed.

(** ** Digits *)

Lemma Decode_digit c (t : gostring) r size :
  DecodeRuneInString (c :: t) = (r, size) -> 48 <= r <= 57 ->
  r = byteZ c /\ size = 1.
Proof.
  intros Hd Hr. destruct (Z.ltb_spec (byteZ c) RuneSelf) as [Hc|Hc].
  - rewrite Decode_ascii in Hd by assumption. inversion Hd. auto.
  - pose proof (Decode_nonascii c t r size Hc Hd). lia.
Qed.

Lemma isAllDigits_range_bytes fuel : forall s,
  (length s <= fuel)%nat -> isAllDigits_range fuel s = digits_only s.
Proof.
  induction fuel as [|fuel IH]; intros [|c t] Hl; try reflexivity.
  - simpl in Hl. lia.
  - cbn [isAllDigits_range digits_only forallb].
    destruct (DecodeRuneInString (c :: t)) as [r size] eqn:Hd.
    unfold isDigit.
    destruct (Z.leb_spec 48 (byteZ c)); destruct (Z.leb_spec (byteZ c) 57);
      cbn [andb].
    + rewrite Decode_ascii in Hd by (unfold RuneSelf; lia).
      inversion Hd; subst r size.
      destruct (Z.ltb_spec (byteZ c) 48); [lia|].
      destruct (Z.ltb_spec 57 (byteZ c)); [lia|]. cbn [orb].
      change (skipn (Z.to_nat 1) (c :: t)) with t.
      apply IH. simpl in Hl. lia.
    + destruct (Z.ltb_spec r 48); [reflexivity|].
      destruct (Z.ltb_spec 57 r); [reflexivity|].
      destruct (Decode_digit c t r size Hd); lia.
    + destruct (Z.ltb_spec r 48); [reflexivity|].
      destruct (Z.ltb_spec 57 r); [reflexivity|].
      destruct (Decode_digit c t r size Hd); lia.
    + lia.
Qed.

(** [isAllDigits] holds of the non-empty strings of the bytes '0'..'9'. *)
Lemma isAllDigits_bytes s :
  isAllDigits s = match s with [] => false | _ => digits_only s end.
Proof.
  destruct s as [|c t]; [reflexivity|].
  unfold isAllDigits. apply isAllDigits_range_bytes. lia.
Qed.

Lemma digits_only_cons c ds :
  digits_only (c :: ds) = true ->
  48 <= byteZ c <= 57 /\ digits_only ds = true.
Proof.
  cbn [digits_only forallb]. unfold isDigit.
  rewrite !andb_true_iff, !Z.leb_le. tauto.
Qed.

Lemma decimal_from_grows ds : forall x,
  0 <= x -> digits_only ds = true -> x <= decimal_from x ds.
Proof.
  induction ds as [|c ds IH]; intros x Hx Hd; [apply Z.le_refl|].
  apply digits_only_cons in Hd. destruct Hd as [Hc Hd].
  cbn [decimal_from fold_left].
  specialize (IH (x * 10 + (byteZ c - 48)) ltac:(lia) Hd).
  unfold decimal_from in IH. lia.
Qed.

Lemma leadingInt_from_digits ds : forall x rest,
  digits_only ds = true -> not_digit_next rest -> 0 <= x ->
  decimal_from x ds <= 2 ^ 63 ->
  leadingInt_from x (ds ++ rest) = Some (decimal_from x ds, rest).
Proof.
  change (2 ^ 63) with 9223372036854775808.
  induction ds as [|c ds IH]; intros x rest Hd Hn Hx Hb.
  - cbn [app decimal_from fold_left]. destruct rest as [|c t]; [reflexivity|].
    cbn [leadingInt_from]. unfold not_digit_next, isDigit in Hn.
    destruct (Z.ltb_spec (byteZ c) 48); [reflexivity|].
    destruct (Z.ltb_spec 57 (byteZ c)); [reflexivity|].
    destruct (Z.leb_spec 48 (byteZ c)); [|lia].
    destruct (Z.leb_spec (byteZ c) 57); [discriminate | lia].
  - destruct (digits_only_cons _ _ Hd) as [Hc Hd'].
    cbn [app leadingInt_from].
    destruct (Z.ltb_spec (byteZ c) 48); [lia|].
    destruct (Z.ltb_spec 57 (byteZ c)); [lia|]. cbn [orb].
    change (decimal_from x (c :: ds))
      with (decimal_from (x * 10 + (byteZ c - 48)) ds) in *.
    pose proof (decimal_from_grows ds (x * 10 + (byteZ c - 48))
                  ltac:(lia) Hd') as Hg.
    change (2 ^ 63 / 10) with 922337203685477580.
    change (2 ^ 63) with 9223372036854775808.
    destruct (Z.ltb_spec 922337203685477580 x); [lia|].
    unfold uint64. change (2 ^ 64) with 18446744073709551616.
    rewrite Z.mod_small by lia.
    destruct (Z.ltb_spec 9223372036854775808 (x * 10 + byteZ c - 48));
      [lia|].
    replace (x * 10 + byteZ c - 48) with (x * 10 + (byteZ c - 48)) by lia.
    apply IH; try assumption; lia.
Qed.

Lemma leadingInt_from_overflow ds : forall x rest,
  digits_only ds = true -> 0 <= x <= 2 ^ 63 ->
  2 ^ 63 < decimal_from x ds ->
  leadingInt_from x (ds ++ rest) = None.
Proof.
  change (2 ^ 63) with 9223372036854775808.
  induction ds as [|c ds IH]; intros x rest Hd Hx Hb.
  - cbn [decimal_from fold_left] in Hb. lia.
  - destruct (digits_only_cons _ _ Hd) as [Hc Hd'].
    cbn [app leadingInt_from].
    destruct (Z.ltb_spec (byteZ c) 48); [lia|].
    destruct (Z.ltb_spec 57 (byteZ c)); [lia|]. cbn [orb].
    change (decimal_from x (c :: ds))
      with (decimal_from (x * 10 + (byteZ c - 48)) ds) in *.
    change (2 ^ 63 / 10) with 922337203685477580.
    change (2 ^ 63) with 9223372036854775808.
    destruct (Z.ltb_spec 922337203685477580 x); [reflexivity|].
    unfold uint64. change (2 ^ 64) with 18446744073709551616.
    rewrite Z.mod_small by lia.
    destruct (Z.ltb_spec 9223372036854775808 (x * 10 + byteZ c - 48));
      [reflexivity|].
    replace (x * 10 + byteZ c - 48) with (x * 10 + (byteZ c - 48)) by lia.
    apply IH; try assumption; lia.
Qed.

(** ** Durations *)

Section Durations.

Context `{GoRuntime}.

Lemma ParseDuration_loop_nil fuel d : ParseDuration_loop fuel d [] = inr d.
Proof. destruct fuel; reflexivity. Qed.

Lemma ParseDuration_seconds ds :
  ds <> [] -> digits_only ds = true ->
  ParseDuration (ds ++ str "s")
  = if decimal ds <=? maxSeconds then inr (decimal ds * Second)
    else inl errInvalidDuration.
Proof.
  intros Hne Hd. destruct ds as [|c t]; [congruence|]. clear Hne.
  destruct (digits_only_cons _ _ Hd) as [Hc Hd'].
  unfold ParseDuration. cbn [app].
  destruct (Z.eqb_spec (byteZ c) 45); [lia|].
  destruct (Z.eqb_spec (byteZ c) 43); [lia|]. cbn [orb].
  assert (E0 : bytes_eqb (c :: t ++ str "s") (str "0") = false).
  { cbn [bytes_eqb str list_ascii_of_string].
    destruct t; cbn [app bytes_eqb]; apply andb_false_r. }
  rewrite E0. cbn [length ParseDuration_loop].
  unfold isDigit at 1.
  destruct (Z.leb_spec 48 (byteZ c)); [|lia].
  destruct (Z.leb_spec (byteZ c) 57); [|lia].
  rewrite orb_true_r. cbn [negb].
  change (c :: t ++ str "s") with ((c :: t) ++ str "s").
  unfold leadingInt, decimal, maxSeconds.
  change (2 ^ 63 / Second) with 9223372036.
  destruct (Z.leb_spec (decimal_from 0 (c :: t)) 9223372036) as [Hm|Hm].
  - rewrite leadingInt_from_digits;
      [|assumption|reflexivity|lia|change (2 ^ 63) with 9223372036854775808; lia].
    assert (El : (len ((c :: t) ++ str "s") =? len (str "s")) = false).
    { apply Z.eqb_neq. rewrite len_app, len_cons.
      pose proof (len_nonneg t). change (len (str "s")) with 1. lia. }
    rewrite El.
    cbn [negb andb str list_ascii_of_string].
    change (byteZ "s" =? 46) with false. cbv iota.
    change (unitSpan ["s"%char]) with (["s"%char], @nil ascii).
    cbv iota beta.
    change (unitMap ["s"%char]) with (Some Second).
    cbv iota beta.
    change (2 ^ 63 / Second) with 9223372036.
    destruct (Z.ltb_spec 9223372036 (decimal_from 0 (c :: t))); [lia|].
    change (0 <? 0) with false. cbv iota. cbn [andb].
    pose proof (decimal_from_grows (c :: t) 0 ltac:(lia) Hd) as Hg.
    unfold uint64, Second, Millisecond, Microsecond, Nanosecond.
    change (2 ^ 64) with 18446744073709551616.
    change (2 ^ 63) with 9223372036854775808.
    rewrite (Z.mod_small (decimal_from 0 (c :: t) * _)) by lia.
    rewrite Z.add_0_l, Z.mod_small by lia.
    destruct (Z.ltb_spec 9223372036854775808
                (decimal_from 0 (c :: t) * (1000 * (1000 * (1000 * 1)))));
      [lia|].
    rewrite ParseDuration_loop_nil.
    destruct (Z.ltb_spec (9223372036854775808 - 1)
                (decimal_from 0 (c :: t) * (1000 * (1000 * (1000 * 1)))));
      [lia|].
    unfold int64. change (2 ^ 64) with 18446744073709551616.
    change (2 ^ 63) with 9223372036854775808.
    rewrite Z.mod_small by lia. f_equal. lia.
  - destruct (Z.leb_spec (decimal_from 0 (c :: t)) (2 ^ 63)) as [Hb|Hb].
    + rewrite leadingInt_from_digits;
        [|assumption|reflexivity|lia|assumption].
      assert (El : (len ((c :: t) ++ str "s") =? len (str "s")) = false).
      { apply Z.eqb_neq. rewrite len_app, len_cons.
        pose proof (len_nonneg t). change (len (str "s")) with 1. lia. }
      rewrite El.
      cbn [negb andb str list_ascii_of_string].
      change (byteZ "s" =? 46) with false. cbv iota.
      change (unitSpan ["s"%char]) with (["s"%char], @nil ascii).
      cbv iota beta.
      change (unitMap ["s"%char]) with (Some Second).
      cbv iota beta.
      change (2 ^ 63 / Second) with 9223372036.
      destruct (Z.ltb_spec 9223372036 (decimal_from 0 (c :: t))); [|lia].
      reflexivity.
    + rewrite leadingInt_from_overflow;
        [reflexivity|assumption|
         change (2 ^ 63) with 9223372036854775808; lia|assumption].
Qed.

End Durations.

(** ** Role dispatch *)

Lemma Run_marker env pid submain :
  marker_set env = true -> Run env pid submain = ToRunChild (runChild submain).
Proof. unfold Run, marker_set. intros ->. reflexivity. Qed.

Lemma Run_direct env pid submain :
  marker_set env = false -> pid <> 1 ->
  Run env pid submain = ToDirect [Exit (callWithBackground submain)].
Proof.
  unfold Run, marker_set. intros -> Hp.
  destruct (Z.eqb_spec pid 1); [contradiction | reflexivity].
Qed.

Lemma Run_init env submain :
  marker_set env = false -> Run env 1 submain = ToRunAsInit.
Proof. unfold Run, marker_set. intros ->. reflexivity. Qed.

Lemma ExitStatus_exited_status code :
  ExitStatus (exited_status code) = code mod 256.
Proof.
  unfold ExitStatus, Exited, exited_status, ws_mask, ws_shift.
  assert (E : Z.land (Z.shiftl (Z.land code 255) 8) 127 = 0).
  { apply Z.bits_inj'; intros n Hn.
    rewrite Z.land_spec, Z.bits_0.
    destruct (Z.ltb_spec n 8).
    - rewrite Z.shiftl_spec_low by lia. reflexivity.
    - change 127 with (Z.ones 7). rewrite Z.ones_spec_high by lia.
      apply andb_false_r. }
  rewrite E. simpl negb. cbv iota.
  rewrite Z.shiftr_shiftl_l by lia. simpl (8 - 8). rewrite Z.shiftl_0_r.
  rewrite <- Z.land_assoc. change (Z.land 255 255) with (Z.ones 8).
  apply Z.land_ones; lia.
Qed.

(** C4. Role dispatch is the function of (pid, marker) given by the
    table: with the marker set [Run] takes the worker path whatever the
    pid; with the marker unset and pid other than 1 it calls the entry
    function with the background context, which is never cancelled, and
    exits with the value it returned, which for a value in 0..255 is also
    the status a parent collects; with the marker unset and pid 1 it
    takes the supervisor path. *)
Theorem Run_role_dispatch (env : Environ) (pid : Z) (submain : SubMain) :
  role (Run env pid submain) = role_table (pid =? 1) (marker_set env)
  /\ (marker_set env = true ->
      Run env pid submain = ToRunChild (runChild submain))
  /\ (marker_set env = false -> pid <> 1 ->
      forall code, callWithBackground submain = code -> 0 <= code <= 255 ->
      Run env pid submain = ToDirect [Exit code]
      /\ ExitStatus (exited_status code) = code)
  /\ (marker_set env = false -> pid = 1 ->
      Run env pid submain = ToRunAsInit).
Proof.
  split; [|split; [|split]].
  - unfold Run. fold (marker_set env).
    destruct (marker_set env), (pid =? 1); reflexivity.
  - apply Run_marker.
  - intros Hm Hp code Hc Hr. split.
    + rewrite <- Hc. apply Run_direct; assumption.
    + rewrite ExitStatus_exited_status. apply Z.mod_small. lia.
  - intros Hm ->. apply Run_init; assumption.
Qed.

Lemma Run_role_dispatch_witness :
  Run emptyEnv 7 returns42 = ToDirect [Exit 42]
  /\ ExitStatus (exited_status 42) = 42.
Proof.
  apply (proj1 (proj2 (proj2 (Run_role_dispatch emptyEnv 7 returns42)))).
  - reflexivity.
  - lia.
  - reflexivity.
  - lia.
Defined.

(** C9. The worker path is taken exactly when PSI_CHILD holds the
    string "1": with any other value, set-but-empty included, [Run] does
    what it does when the variable is absent, so with a pid other than 1
    it runs the entry function directly and exits with its return
    value. *)
Theorem Run_marker_exact_value
    (env : Environ) (pid : Z) (submain : SubMain) :
  (role (Run env pid submain) = WorkerRole
   <-> LookupEnv env childEnvKey = Some childEnvVal)
  /\ (forall v, LookupEnv env childEnvKey = Some v -> v <> childEnvVal ->
      Run env pid submain = Run (Unsetenv env childEnvKey) pid submain
      /\ (pid <> 1 ->
          Run env pid submain
          = ToDirect [Exit (callWithBackground submain)])).
Proof.
  split.
  - unfold Run, Getenv, LookupEnv.
    destruct (env childEnvKey) as [v|] eqn:E.
    + destruct (bytes_eqb v childEnvVal) eqn:Ev.
      * apply bytes_eqb_eq in Ev. subst v. split; reflexivity.
      * apply bytes_eqb_neq in Ev.
        destruct (pid =? 1); split; try discriminate; congruence.
    + cbn [bytes_eqb childEnvVal str list_ascii_of_string].
      destruct (pid =? 1); split; discriminate.
  - intros v Hl Hv.
    assert (Hm : marker_set env = false).
    { unfold marker_set, Getenv. unfold LookupEnv in Hl. rewrite Hl.
      apply bytes_eqb_neq; assumption. }
    assert (Hu : marker_set (Unsetenv env childEnvKey) = false)
      by reflexivity.
    split.
    + unfold Run.
      fold (marker_set env) (marker_set (Unsetenv env childEnvKey)).
      rewrite Hm, Hu. reflexivity.
    + intros Hp. apply Run_direct; assumption.
Qed.

Lemma Run_marker_exact_value_witness :
  Run (Setenv emptyEnv childEnvKey (str "true")) 7 returns42
  = Run (Unsetenv (Setenv emptyEnv childEnvKey (str "true")) childEnvKey)
      7 returns42
  /\ (7 <> 1 ->
      Run (Setenv emptyEnv childEnvKey (str "true")) 7 returns42
      = ToDirect [Exit (callWithBackground returns42)]).
Proof.
  apply (proj2 (Run_marker_exact_value
                  (Setenv emptyEnv childEnvKey (str "true")) 7 returns42)
           (str "true")).
  - reflexivity.
  - discriminate.
Defined.

(** ** The worker *)

Lemma cancel_first w :
  ctxErr w = false ->
  cancel w = ({| ctxErr := true; termCh := termCh w; running := running w |},
              [CloseDone]).
Proof. unfold cancel. intros ->. reflexivity. Qed.









(** ** The reaper *)

Lemma reap_passes_over childPID others : forall rs,
  forallb (passed_over childPID) others = true ->
  fst (reapUntilChildExit childPID (others ++ rs))
  = fst (reapUntilChildExit childPID rs).
Proof.
  induction others as [|r others IH]; intros rs Hall; [reflexivity|].
  simpl in Hall. apply andb_true_iff in Hall. destruct Hall as [Hr Hall].
  specialize (IH rs Hall). simpl.
  destruct r as [err|pid ws]; simpl in Hr.
  - destruct (err =? EINTR).
    + destruct (reapUntilChildExit childPID (others ++ rs)). exact IH.
    + destruct (err =? ECHILD); [discriminate|].
      destruct (reapUntilChildExit childPID (others ++ rs)). exact IH.
  - destruct (pid =? childPID); [discriminate|].
    destruct (reapUntilChildExit childPID (others ++ rs)). exact IH.
Qed.

Lemma reap_waits_on childPID others :
  forallb (passed_over childPID) others = true ->
  fst (reapUntilChildExit childPID others) = None.
Proof.
  intros Hall. rewrite <- (app_nil_r others).
  rewrite reap_passes_over by assumption. reflexivity.
Qed.

Lemma reaped_other_passed_over childPID rs :
  forallb (is_reaped_other childPID) rs = true ->
  forallb (passed_over childPID) rs = true.
Proof.
  induction rs as [|r rs IH]; simpl; [reflexivity|].
  rewrite !andb_true_iff. intros [Hr Hall]. split; [|auto].
  destruct r; [discriminate | exact Hr].
Qed.

Lemma reap_child_first childPID ws rest :
  reapUntilChildExit childPID (Waited childPID ws :: rest)
  = (Some (translated ws), [Wait4 (-1) 0]).
Proof.
  simpl. rewrite Z.eqb_refl. unfold translated.
  destruct (Exited ws); [reflexivity|]. destruct (Signaled ws); reflexivity.
Qed.

Lemma land_127_bounds w : 0 <= Z.land w 127 <= 127.
Proof.
  change 127 with (Z.ones 7) at 1 2. rewrite Z.land_ones by lia.
  pose proof (Z.mod_pos_bound w (2 ^ 7)). lia.
Qed.

Lemma translated_range ws : 0 <= translated ws <= 255.
Proof.
  unfold translated, ExitStatus, Signal, Signaled, Exited, ws_mask,
    ws_stopped, ws_shift.
  pose proof (land_127_bounds ws) as Hb.
  destruct (Z.eqb_spec (Z.land ws 127) 0) as [E0|E0]; cbn [negb andb].
  - change 255 with (Z.ones 8) at 1 2. rewrite Z.land_ones by lia.
    pose proof (Z.mod_pos_bound (Z.shiftr ws 8) (2 ^ 8)). lia.
  - destruct (Z.eqb_spec (Z.land ws 127) 127); cbn [negb andb]; lia.
Qed.

(** C2. Whatever other processes are collected first, and whatever
    follows, [reapUntilChildExit] returns the outcome of the managed
    child and of no other process: collected pids other than the child's
    are discarded and the loop goes on (with only such pids it is still
    waiting), and the first result for the child's pid ends it with the
    child's exit status when it exited, 128 plus the signal number when a
    signal killed it, and 1 for any other status. *)
Theorem reap_returns_child_outcome
    (childPID : Z) (others : list WaitResult) (ws : WaitStatus)
    (rest : list WaitResult) :
  forallb (is_reaped_other childPID) others = true ->
  fst (reapUntilChildExit childPID (others ++ Waited childPID ws :: rest))
  = Some (translated ws)
  /\ fst (reapUntilChildExit childPID others) = None
  /\ (Exited ws = true -> translated ws = ExitStatus ws)
  /\ (Exited ws = false -> Signaled ws = true ->
      translated ws = 128 + Signal ws)
  /\ (Exited ws = false -> Signaled ws = false -> translated ws = 1).
Proof.
  intros Hall. apply reaped_other_passed_over in Hall.
  split; [|split; [|split; [|split]]].
  - rewrite reap_passes_over by assumption.
    rewrite reap_child_first. reflexivity.
  - apply reap_waits_on; assumption.
  - unfold translated. intros ->. reflexivity.
  - unfold translated. intros -> ->. reflexivity.
  - unfold translated. intros -> ->. reflexivity.
Qed.

Lemma reap_returns_child_outcome_witness :
  fst (reapUntilChildExit 20
         ([Waited 21 0; Waited 34 9] ++ Waited 20 (7 * 256) :: [Waited 35 0]))
  = Some (translated (7 * 256))
  /\ translated (7 * 256) = 7.
Proof.
  pose proof (reap_returns_child_outcome 20 [Waited 21 0; Waited 34 9]
                (7 * 256) [Waited 35 0] eq_refl) as H.
  split.
  - exact (proj1 H).
  - exact (proj1 (proj2 (proj2 H)) eq_refl).
Defined.

(** C6. The reaper's error policy: after EINTR the wait is called again
    at once, with nothing in between; ECHILD ends the loop with code 0;
    any other error is followed by a 10 ms sleep and a new wait, and no
    number of such errors changes what the loop finally returns: it is
    never ended by them. *)
Theorem reap_error_policy (childPID : Z) (rs : list WaitResult) :
  reapUntilChildExit childPID (WaitErr EINTR :: rs)
  = (fst (reapUntilChildExit childPID rs),
     Wait4 (-1) 0 :: snd (reapUntilChildExit childPID rs))
  /\ reapUntilChildExit childPID (WaitErr ECHILD :: rs)
     = (Some 0, [Wait4 (-1) 0])
  /\ (forall err, err <> EINTR -> err <> ECHILD ->
      reapUntilChildExit childPID (WaitErr err :: rs)
      = (fst (reapUntilChildExit childPID rs),
         Wait4 (-1) 0 :: Sleep (10 * Millisecond)
         :: snd (reapUntilChildExit childPID rs)))
  /\ (forall errs, Forall (fun err => err <> ECHILD) errs ->
      fst (reapUntilChildExit childPID (map WaitErr errs ++ rs))
      = fst (reapUntilChildExit childPID rs))
  /\ filter is_Exit (snd (reapUntilChildExit childPID rs)) = [].
Proof.
  split; [|split; [|split; [|split]]].
  - simpl. destruct (reapUntilChildExit childPID rs). reflexivity.
  - reflexivity.
  - intros err H1 H2. simpl.
    destruct (Z.eqb_spec err EINTR); [contradiction|].
    destruct (Z.eqb_spec err ECHILD); [contradiction|].
    destruct (reapUntilChildExit childPID rs). reflexivity.
  - intros errs Hall. apply reap_passes_over.
    induction Hall as [|err errs Herr _ IH]; simpl; [reflexivity|].
    rewrite IH, andb_true_r.
    destruct (Z.eqb_spec err ECHILD); [contradiction | reflexivity].
  - induction rs as [|r rs IH]; [reflexivity|]. simpl.
    destruct (reapUntilChildExit childPID rs) as [res tr]. simpl in IH.
    destruct r as [err|pid ws].
    + destruct (err =? EINTR); [exact IH|].
      destruct (err =? ECHILD); [reflexivity | exact IH].
    + destruct (pid =? childPID); [|exact IH].
      destruct (Exited ws); [reflexivity|].
      destruct (Signaled ws); reflexivity.
Qed.

Lemma reap_error_policy_witness :
  reapUntilChildExit 20 (WaitErr 5 :: [Waited 20 9])
  = (Some 137, [Wait4 (-1) 0; Sleep (10 * Millisecond); Wait4 (-1) 0])
  /\ fst (reapUntilChildExit 20 (map WaitErr [5; 4; 11] ++ [Waited 20 9]))
     = Some 137.
Proof.
  pose proof (reap_error_policy 20 [Waited 20 9]) as H.
  split.
  - exact (proj1 (proj2 (proj2 H)) 5 ltac:(discriminate) ltac:(discriminate)).
  - exact (proj1 (proj2 (proj2 (proj2 H))) [5; 4; 11]
             ltac:(repeat constructor; discriminate)).
Defined.

(** ** The supervisor *)

Section SupervisorLoop.

Context `{GoRuntime}.
Variable childPID : Z.
Variable stopTimeout : Z.

Lemma startKillTimer_eq v :
  startKillTimer stopTimeout v
  = (tt, {| startOnce := startOnce v; killTimer := Some stopTimeout |},
     arming stopTimeout v).
Proof.
  unfold startKillTimer, arming, bind, get_killTimer, emit, set_killTimer.
  destruct (killTimer v); reflexivity.
Qed.

(** The body of the signal case, for any [os.Signal]: nothing for
    SIGCHLD; otherwise the forwarding, when the signal converts, and
    then the arming, when it is terminate-class and nothing was armed. *)
Lemma onSignal_eq s v :
  onSignal childPID stopTimeout s v =
  if os_Signal_eqb s (SyscallSignal SIGCHLD) then (tt, v, [])
  else
    let forwarding :=
      if snd (toSyscallSignal s)
      then [Kill (- childPID) (fst (toSyscallSignal s))] else [] in
    if isTerminateSignal s && negb (startOnce v)
    then (tt, armed stopTimeout, forwarding ++ arming stopTimeout v)
    else (tt, v, forwarding ++ []).
Proof.
  unfold onSignal.
  destruct (os_Signal_eqb s (SyscallSignal SIGCHLD)); [reflexivity|].
  destruct (toSyscallSignal s) as [sig ok]. cbn [fst snd].
  destruct v as [once timer].
  destruct ok, (isTerminateSignal s), once, timer; reflexivity.
Qed.

Lemma step_signal v n :
  step childPID stopTimeout (Selecting v) (SelSignal n) =
  if n =? SIGCHLD then Some (Selecting v, [])
  else if terminate_class n && negb (startOnce v)
  then Some (Selecting (armed stopTimeout),
             Kill (- childPID) n :: arming stopTimeout v)
  else Some (Selecting v, [Kill (- childPID) n]).
Proof.
  unfold step. rewrite onSignal_eq.
  unfold terminate_class. cbn [os_Signal_eqb toSyscallSignal fst snd].
  destruct (n =? SIGCHLD); [reflexivity|].
  destruct (isTerminateSignal (SyscallSignal n) && negb (startOnce v));
    reflexivity.
Qed.

Lemma drain_no_kill_no_timer sweep :
  filter is_Kill (drainZombiesNonBlock sweep) = []
  /\ filter is_timer (drainZombiesNonBlock sweep) = [].
Proof.
  induction sweep as [|r sweep [IH1 IH2]]; [split; reflexivity|].
  destruct r as [err|pid ws]; simpl; [split; reflexivity|].
  destruct (pid <=? 0); [split; reflexivity | split; assumption].
Qed.

Lemma run_terminated code evs p tr :
  run childPID stopTimeout (Terminated code) evs = Some (p, tr) -> evs = [].
Proof. destruct evs as [|ev evs]; [reflexivity | discriminate]. Qed.

Lemma run_awaiting v evs p tr :
  run childPID stopTimeout (AwaitingDone v) evs = Some (p, tr) ->
  terminate_received evs = false.
Proof.
  destruct evs as [|ev evs]; [reflexivity|]. cbn [run].
  destruct ev as [code sweep|n| |code]; try discriminate. cbn [step].
  destruct (run childPID stopTimeout (Terminated code) evs)
    as [[p2 t2]|] eqn:Er; [|discriminate].
  apply run_terminated in Er. subst evs. reflexivity.
Qed.

(** The timer effects and the kills of a run from any state of the
    process. *)
Lemma run_effects evs : forall p p' tr,
  run childPID stopTimeout p evs = Some (p', tr) ->
  filter is_Kill tr = expected_kills childPID evs
  /\ filter is_timer tr =
     match p with
     | Selecting v =>
         if terminate_received evs && negb (startOnce v)
         then arming stopTimeout v else []
     | _ => []
     end.
Proof.
  induction evs as [|ev evs IH]; intros p p' tr; cbn [run].
  - intros Hr. inversion Hr; subst. split; [reflexivity|].
    destruct p'; reflexivity.
  - destruct (step childPID stopTimeout p ev) as [[p1 t1]|] eqn:Es;
      [|discriminate].
    destruct (run childPID stopTimeout p1 evs) as [[p2 t2]|] eqn:Er;
      [|discriminate].
    intros Hr. inversion Hr; subst p2 tr. clear Hr.
    destruct (IH _ _ _ Er) as [Hk Ht]. rewrite !filter_app, Hk, Ht.
    clear IH Hk Ht.
    cbn [expected_kills terminate_received flat_map existsb].
    fold (expected_kills childPID evs). fold (terminate_received evs).
    destruct p as [v|v|c]; destruct ev as [code sweep|n| |code];
      try discriminate.
    + unfold step in Es. inversion Es; subst.
      apply run_terminated in Er. subst evs.
      destruct (drain_no_kill_no_timer sweep) as [D1 D2].
      cbn [filter is_Kill is_timer]. rewrite !filter_app, D1, D2.
      split; reflexivity.
    + rewrite step_signal in Es.
      destruct (n =? SIGCHLD) eqn:En.
      { inversion Es; subst.
        assert (Et : terminate_class n = false).
        { apply Z.eqb_eq in En. subst n. reflexivity. }
        rewrite Et. split; reflexivity. }
      destruct (terminate_class n) eqn:Et; cbn [andb orb] in *.
      * destruct (startOnce v) eqn:Eo; cbn [negb] in Es; inversion Es; subst.
        -- rewrite Eo. cbn [negb]. rewrite andb_false_r. split; reflexivity.
        -- cbn [armed startOnce negb]. rewrite andb_false_r, app_nil_r.
           unfold arming; destruct (killTimer v); split; reflexivity.
      * inversion Es; subst. split; reflexivity.
    + unfold step in Es.
      destruct (killTimer v); [|discriminate]. inversion Es; subst.
      apply run_awaiting in Er. rewrite Er. split; reflexivity.
    + unfold step in Es. inversion Es; subst. split; reflexivity.
Qed.

Lemma run_state evs : forall v p tr,
  run childPID stopTimeout (Selecting v) evs = Some (p, tr) ->
  forall v', p = Selecting v' ->
  v' = if terminate_received evs && negb (startOnce v)
       then armed stopTimeout else v.
Proof.
  induction evs as [|ev evs IH]; intros v p tr; cbn [run].
  - intros Hr v' ->. inversion Hr; subst. reflexivity.
  - destruct (step childPID stopTimeout (Selecting v) ev)
      as [[p1 t1]|] eqn:Es; [|discriminate].
    destruct (run childPID stopTimeout p1 evs) as [[p2 t2]|] eqn:Er;
      [|discriminate].
    intros Hr v' ->. inversion Hr; subst p2 tr. clear Hr.
    cbn [terminate_received existsb]. fold (terminate_received evs).
    destruct ev as [code sweep|n| |code]; try discriminate.
    + unfold step in Es. inversion Es; subst.
      pose proof (run_terminated _ _ _ _ Er) as He. subst evs.
      discriminate.
    + rewrite step_signal in Es.
      destruct (n =? SIGCHLD) eqn:En.
      { inversion Es; subst.
        assert (Et : terminate_class n = false).
        { apply Z.eqb_eq in En. subst n. reflexivity. }
        rewrite Et. exact (IH _ _ _ Er _ eq_refl). }
      destruct (terminate_class n) eqn:Et; cbn [andb orb] in *.
      * destruct (startOnce v) eqn:Eo; cbn [negb] in Es; inversion Es; subst.
        -- rewrite (IH _ _ _ Er _ eq_refl), Eo, !andb_false_r. reflexivity.
        -- rewrite (IH _ _ _ Er _ eq_refl). cbn [armed startOnce negb].
           rewrite andb_false_r. reflexivity.
      * inversion Es; subst. exact (IH _ _ _ Er _ eq_refl).
    + unfold step in Es.
      destruct (killTimer v); [|discriminate]. inversion Es; subst.
      destruct evs as [|ev evs]; [discriminate|]. cbn [run] in Er.
      destruct ev; try discriminate. cbn [step] in Er.
      destruct (run childPID stopTimeout (Terminated code) evs)
        as [[p3 t3]|] eqn:Er'; [|discriminate].
      pose proof (run_terminated _ _ _ _ Er') as He. subst evs.
      cbn [run] in Er'. inversion Er'; subst. discriminate.
Qed.

Lemma terminate_class_not_SIGCHLD n :
  terminate_class n = true -> (n =? SIGCHLD) = false.
Proof.
  intros Ht. destruct (Z.eqb_spec n SIGCHLD) as [->|]; [discriminate|].
  reflexivity.
Qed.

(** C1. In the supervisor loop, a received SIGCHLD is skipped: nothing
    is sent and nothing changes. Every other received signal is sent to
    the negative of the child's pid, which is its process group, and
    this is the first thing done for it, whatever its class and whatever
    the state of the timer; what follows contains no kill and is exactly
    the arming of the timer when the signal is terminate-class and
    nothing was armed before, and nothing otherwise. *)
Theorem signal_forwarded_before_arming (v : LoopVars) (n : Z) :
  (n = SIGCHLD ->
   step childPID stopTimeout (Selecting v) (SelSignal n)
   = Some (Selecting v, []))
  /\ (n <> SIGCHLD ->
      exists v' after,
        step childPID stopTimeout (Selecting v) (SelSignal n)
        = Some (Selecting v', Kill (- childPID) n :: after)
        /\ after = (if terminate_class n && negb (startOnce v)
                    then arming stopTimeout v else [])
        /\ filter is_Kill after = []
        /\ filter is_timer after = after).
Proof.
  rewrite step_signal. split.
  - intros ->. reflexivity.
  - intros Hn. destruct (Z.eqb_spec n SIGCHLD); [contradiction|].
    destruct (terminate_class n && negb (startOnce v)).
    + exists (armed stopTimeout), (arming stopTimeout v).
      unfold arming. destruct (killTimer v); repeat split; reflexivity.
    + exists v, []. repeat split; reflexivity.
Qed.

(** C3. From the start of the loop, over any sequence of received
    events: the only timer effect ever produced is one [NewTimer] with
    the configured duration, produced if and only if some terminate-class
    signal was received; the first such signal is forwarded and arms the
    timer; once armed, a further terminate-class signal is forwarded and
    changes nothing else, so the countdown is neither restarted nor
    armed again; and every received signal but SIGCHLD is forwarded. *)
Theorem shutdown_timer_armed_once
    (evs : list Event) (p : Proc) (tr : Trace) :
  run childPID stopTimeout (Selecting initialVars) evs = Some (p, tr) ->
  filter is_timer tr
  = (if terminate_received evs then [NewTimer stopTimeout] else [])
  /\ filter is_Kill tr = expected_kills childPID evs
  /\ (forall v, p = Selecting v ->
      v = if terminate_received evs then armed stopTimeout else initialVars)
  /\ (forall n, terminate_class n = true ->
      step childPID stopTimeout (Selecting initialVars) (SelSignal n)
      = Some (Selecting (armed stopTimeout),
              [Kill (- childPID) n; NewTimer stopTimeout]))
  /\ (forall n, terminate_class n = true ->
      step childPID stopTimeout (Selecting (armed stopTimeout)) (SelSignal n)
      = Some (Selecting (armed stopTimeout), [Kill (- childPID) n])).
Proof.
  intros Hr. destruct (run_effects _ _ _ _ Hr) as [Hk Ht].
  cbn [initialVars startOnce negb] in Ht. rewrite andb_true_r in Ht.
  split; [exact Ht|]. split; [exact Hk|]. split; [|split].
  - intros v Hv. rewrite (run_state _ _ _ _ Hr _ Hv).
    cbn [initialVars startOnce negb]. rewrite andb_true_r. reflexivity.
  - intros n Hn. rewrite step_signal, Hn, (terminate_class_not_SIGCHLD n Hn).
    reflexivity.
  - intros n Hn. rewrite step_signal, Hn, (terminate_class_not_SIGCHLD n Hn).
    reflexivity.
Qed.

(** C8, as the code has it. When the child cannot be started the
    supervisor tries once, logs the failure and exits with status 1,
    and does nothing else: no second attempt, no signal, no wait. The
    status 1 is not zero, but it is not set apart from the statuses that
    report the child's outcome: it is also the fallback for an
    indeterminate wait status and the child's own exit code 1. *)
Theorem spawn_failure_exits_with_1 (env : Environ) (err : gostring) :
  runAsInit env (StartFailed err)
  = ([StartChild (childEnvKey, childEnvVal) true;
      Log (FailedToStartChild err); Exit 1], None)
  /\ (forall code, In (Exit code) (fst (runAsInit env (StartFailed err))) ->
      code = 1 /\ code <> 0
      /\ code = translated ws_stopped
      /\ code = translated (exited_status 1)).
Proof.
  split; [reflexivity|].
  intros code [Hc|[Hc|[Hc|[]]]]; try discriminate.
  inversion Hc; subst. repeat split; discriminate.
Qed.

End SupervisorLoop.

Lemma signal_forwarded_before_arming_witness :
  exists v' after,
    step (H := exampleRuntime) 20 (30 * Second) (Selecting initialVars)
      (SelSignal SIGTERM)
    = Some (Selecting v', Kill (- 20) SIGTERM :: after)
    /\ after = (if terminate_class SIGTERM && negb (startOnce initialVars)
                then arming (30 * Second) initialVars else [])
    /\ filter is_Kill after = []
    /\ filter is_timer after = after.
Proof.
  apply (proj2 (signal_forwarded_before_arming (H := exampleRuntime)
                  20 (30 * Second) initialVars SIGTERM)).
  discriminate.
Defined.

Lemma shutdown_timer_armed_once_witness :
  filter is_timer
    [Kill (-20) SIGUSR1; Kill (-20) SIGTERM; NewTimer (30 * Second);
     Kill (-20) SIGTERM; Kill (-20) SIGINT]
  = [NewTimer (30 * Second)].
Proof.
  exact (proj1 (shutdown_timer_armed_once (H := exampleRuntime)
                  20 (30 * Second)
                  [SelSignal SIGUSR1; SelSignal SIGCHLD; SelSignal SIGTERM;
                   SelSignal SIGTERM; SelSignal SIGINT]
                  (Selecting (armed (30 * Second)))
                  [Kill (-20) SIGUSR1; Kill (-20) SIGTERM;
                   NewTimer (30 * Second);
                   Kill (-20) SIGTERM; Kill (-20) SIGINT]
                  eq_refl)).
Defined.

Lemma spawn_failure_exits_with_1_witness :
  1 = 1 /\ 1 <> 0 /\ 1 = translated ws_stopped
  /\ 1 = translated (exited_status 1).
Proof.
  apply (proj2 (spawn_failure_exits_with_1 (H := exampleRuntime)
                  emptyEnv (str "exec format error")) 1).
  simpl. right. right. left. reflexivity.
Defined.

(** C8, as stated, fails: the status of a spawn failure is the status
    the supervisor also exits with when the child's wait status is
    indeterminate, and when the child itself exits with code 1. *)
Lemma spawn_failure_code_not_distinct :
  In (Exit 1)
     (fst (runAsInit (H := exampleRuntime) emptyEnv
             (StartFailed (str "exec format error"))))
  /\ fst (reapUntilChildExit 20 [Waited 20 ws_stopped]) = Some 1
  /\ fst (reapUntilChildExit 20 [Waited 20 (exited_status 1)]) = Some 1.
Proof.
  split; [simpl; auto | split; reflexivity].
Qed.

(** ** The stop timeout *)

Lemma digit_solid c : isDigit (byteZ c) = true -> solid c = true.
Proof.
  unfold isDigit, solid, asciiSpace, RuneSelf.
  rewrite andb_true_iff, !Z.leb_le. intros [H1 H2].
  destruct (Z.ltb_spec (byteZ c) 128); [|lia].
  repeat match goal with
         | |- context [?a =? ?b] => destruct (Z.eqb_spec a b); [lia|]
         end.
  reflexivity.
Qed.

Lemma digits_solid_ends ds :
  ds <> [] -> digits_only ds = true -> solid_ends ds.
Proof.
  intros Hne Hd. destruct ds as [|f t]; [congruence|].
  destruct (exists_last Hne) as [init [l E]].
  exists f, t, init, l. split; [reflexivity|]. split; [exact E|].
  split.
  - apply digit_solid. cbn [digits_only forallb] in Hd.
    apply andb_true_iff in Hd. tauto.
  - apply digit_solid. rewrite E in Hd. unfold digits_only in Hd.
    rewrite forallb_app in Hd. cbn [forallb] in Hd.
    rewrite andb_true_r in Hd. apply andb_true_iff in Hd. tauto.
Qed.

Lemma TrimSpace_around_digits ws1 ds ws2 :
  whitespace ws1 -> whitespace ws2 -> ds <> [] -> digits_only ds = true ->
  TrimSpace (ws1 ++ ds ++ ws2) = ds.
Proof.
  intros [c1 [H1 ->]] [c2 [H2 ->]] Hne Hd.
  apply TrimSpace_ws; try assumption. apply digits_solid_ends; assumption.
Qed.

Lemma TrimSpace_digits ds :
  ds <> [] -> digits_only ds = true -> TrimSpace ds = ds.
Proof.
  intros Hne Hd.
  pose proof (TrimSpace_around_digits [] ds []) as E.
  cbn [app] in E. rewrite app_nil_r in E. apply E; try assumption;
    exists []; split; reflexivity.
Qed.

Lemma TrimSpace_whitespace ws : whitespace ws -> TrimSpace ws = [].
Proof. intros [chunks [Hc ->]]. apply TrimSpace_all_ws. assumption. Qed.

Section StopTimeout.

Context `{GoRuntime}.

(** What [parseStopTimeout] returns once the value is trimmed. *)
Lemma parseStopTimeout_trimmed env def :
  parseStopTimeout env def =
  match TrimSpace (Getenv env stopTimeoutEnv) with
  | [] => (def, [])
  | val =>
      let val := if isAllDigits val then val ++ str "s" else val in
      match ParseDuration val with
      | inl _ => rejected val def
      | inr d => if d <? 0 then rejected val def else (d, [])
      end
  end.
Proof.
  unfold parseStopTimeout.
  destruct (TrimSpace (Getenv env stopTimeoutEnv)); reflexivity.
Qed.

Lemma parseStopTimeout_digits env def ds :
  TrimSpace (Getenv env stopTimeoutEnv) = ds ->
  ds <> [] -> digits_only ds = true ->
  parseStopTimeout env def =
  if decimal ds <=? maxSeconds then (decimal ds * Second, [])
  else rejected (ds ++ str "s") def.
Proof.
  intros Ht Hne Hd. rewrite parseStopTimeout_trimmed, Ht.
  destruct ds as [|c t]; [congruence|]. cbv zeta.
  rewrite isAllDigits_bytes, Hd.
  rewrite ParseDuration_seconds by assumption.
  destruct (Z.leb_spec (decimal (c :: t)) maxSeconds); [|reflexivity].
  pose proof (decimal_from_grows (c :: t) 0 ltac:(lia) Hd) as Hg.
  fold (decimal (c :: t)) in Hg.
  destruct (Z.ltb_spec (decimal (c :: t) * Second) 0); [|reflexivity].
  unfold Second, Millisecond, Microsecond, Nanosecond in *. lia.
Qed.



(** C10, as the code has it. The value is trimmed of leading and
    trailing whitespace before it is classified: decimal digits
    surrounded by whitespace give that many seconds when the number is
    at most 9223372036, and otherwise the default with a warning; a
    value of whitespace only is treated as empty and gives the default
    without a warning. *)
Theorem stop_timeout_trims_whitespace
    (env : Environ) (def : Z) (ws1 ds ws2 : gostring) :
  (Getenv env stopTimeoutEnv = ws1 ++ ds ++ ws2 ->
   whitespace ws1 -> whitespace ws2 -> ds <> [] -> digits_only ds = true ->
   TrimSpace (ws1 ++ ds ++ ws2) = ds
   /\ parseStopTimeout env def =
      if decimal ds <=? maxSeconds then (decimal ds * Second, [])
      else rejected (ds ++ str "s") def)
  /\ (whitespace (Getenv env stopTimeoutEnv) ->
      parseStopTimeout env def = (def, [])).
Proof.
  split.
  - intros E H1 H2 Hne Hd.
    pose proof (TrimSpace_around_digits ws1 ds ws2 H1 H2 Hne Hd) as Ht.
    split; [exact Ht|].
    apply parseStopTimeout_digits; try assumption. rewrite E. exact Ht.
  - intros Hw. rewrite parseStopTimeout_trimmed.
    rewrite (TrimSpace_whitespace _ Hw). reflexivity.
Qed.

End StopTimeout.



Lemma whitespace_space : whitespace (str " ").
Proof. exists [str " "]. split; reflexivity. Qed.

Lemma whitespace_tab_nbsp : whitespace (tab ++ nbsp).
Proof. exists [tab; nbsp]. split; reflexivity. Qed.

Lemma stop_timeout_trims_whitespace_witness :
  TrimSpace (str " " ++ str "12" ++ (tab ++ nbsp)) = str "12"
  /\ parseStopTimeout (H := exampleRuntime)
       (timeoutEnv (str " " ++ str "12" ++ (tab ++ nbsp)))
       (33 * Second)
     = (if decimal (str "12") <=? maxSeconds
        then (decimal (str "12") * Second, [])
        else rejected (str "12" ++ str "s") (33 * Second)).
Proof.
  apply (proj1 (stop_timeout_trims_whitespace (H := exampleRuntime)
                  (timeoutEnv (str " " ++ str "12" ++ (tab ++ nbsp)))
                  (33 * Second) (str " ") (str "12") (tab ++ nbsp))).
  - reflexivity.
  - exact whitespace_space.
  - exact whitespace_tab_nbsp.
  - discriminate.
  - reflexivity.
Defined.

(** C10, as stated, fails: digits surrounded by whitespace do not
    always give that many seconds. " 9223372037 " is trimmed to digits
    whose seconds do not fit a duration, and the default is used. *)
Lemma stop_timeout_padded_digits_overflow :
  TrimSpace (str " 9223372037 ") = str "9223372037"
  /\ parseStopTimeout (H := exampleRuntime)
       (timeoutEnv (str " 9223372037 ")) defaultStopTimeout
     = rejected (str "9223372037s") defaultStopTimeout
  /\ fst (parseStopTimeout (H := exampleRuntime)
            (timeoutEnv (str " 9223372037 ")) defaultStopTimeout)
     <> 9223372037 * Second.
Proof.
  split; [reflexivity|]. split; [reflexivity|]. vm_compute. discriminate.
Qed.

(** * Further properties *)

(** ** The sweep and the reaper *)

(** X1. The non-blocking sweep collects every child that is ready and
    stops at the first call that fails or finds none: with [k] children
    ready it makes exactly [k + 1] wait calls, all of them for any child
    and all with WNOHANG, and does nothing else. *)
Theorem drainZombiesNonBlock_collects_ready
    (zombies rest : list WaitResult) :
  forallb is_zombie zombies = true -> ends_sweep rest ->
  drainZombiesNonBlock (zombies ++ rest)
  = repeat (Wait4 (-1) WNOHANG) (S (length zombies)).
Proof.
  intros Hz Hr. induction zombies as [|z zs IH].
  - destruct rest as [|r rest]; [reflexivity|].
    cbn [app drainZombiesNonBlock length repeat]. unfold ends_sweep in Hr.
    destruct r as [err|pid ws]; [reflexivity|]. cbn [is_zombie] in Hr.
    destruct (Z.leb_spec pid 0); [reflexivity|].
    apply Z.ltb_ge in Hr. lia.
  - cbn [forallb] in Hz. apply andb_true_iff in Hz. destruct Hz as [Hz Hzs].
    destruct z as [err|pid ws]; [discriminate|]. cbn [is_zombie] in Hz.
    apply Z.ltb_lt in Hz.
    cbn [app drainZombiesNonBlock length]. rewrite (IH Hzs).
    destruct (Z.leb_spec pid 0); [lia|]. reflexivity.
Qed.

Lemma drainZombiesNonBlock_collects_ready_witness :
  drainZombiesNonBlock ([Waited 31 0; Waited 32 9] ++ [Waited 0 0; Waited 33 0])
  = repeat (Wait4 (-1) WNOHANG) 3.
Proof.
  apply (drainZombiesNonBlock_collects_ready
           [Waited 31 0; Waited 32 9] [Waited 0 0; Waited 33 0]).
  - reflexivity.
  - reflexivity.
Defined.

Lemma reap_first_result childPID r rs :
  fst (reapUntilChildExit childPID (r :: rs))
  = if passed_over childPID r then fst (reapUntilChildExit childPID rs)
    else match r with
         | WaitErr _ => Some 0
         | Waited _ ws => Some (translated ws)
         end.
Proof.
  cbn [reapUntilChildExit]. destruct r as [err|pid ws]; cbn [passed_over].
  - destruct (Z.eqb_spec err EINTR) as [->|].
    + cbn. destruct (reapUntilChildExit childPID rs). reflexivity.
    + destruct (err =? ECHILD); cbn [negb]; [reflexivity|].
      destruct (reapUntilChildExit childPID rs). reflexivity.
  - destruct (pid =? childPID); cbn [negb].
    + unfold translated. destruct (Exited ws); [reflexivity|].
      destruct (Signaled ws); reflexivity.
    + destruct (reapUntilChildExit childPID rs). reflexivity.
Qed.

(** X2. What the reaper returns is decided by the first wait result
    that is either "no children" or for the child's pid, whatever comes
    before it and after it: 0 for the former, the translated status for
    the latter, and no return at all while there is none. *)
Theorem reap_decided_by_first_decisive
    (childPID : Z) (rs : list WaitResult) :
  fst (reapUntilChildExit childPID rs) = first_decisive childPID rs.
Proof.
  unfold first_decisive. induction rs as [|r rs IH]; [reflexivity|].
  rewrite reap_first_result. cbn [find].
  destruct (passed_over childPID r) eqn:E; cbn [negb]; [exact IH|].
  destruct r; reflexivity.
Qed.

(** X3. Whatever the reaper returns is a valid process exit status: a
    number from 0 to 255. *)
Theorem reap_code_is_exit_status
    (childPID : Z) (rs : list WaitResult) (code : Z) :
  fst (reapUntilChildExit childPID rs) = Some code -> 0 <= code <= 255.
Proof.
  induction rs as [|r rs IH]; [discriminate|].
  rewrite reap_first_result.
  destruct (passed_over childPID r); [exact IH|].
  destruct r as [err|pid ws]; intros E; inversion E; subst.
  - lia.
  - apply translated_range.
Qed.

Lemma reap_code_is_exit_status_witness : 0 <= 137 <= 255.
Proof.
  apply (reap_code_is_exit_status 20 [Waited 21 0; WaitErr 4; Waited 20 9]).
  reflexivity.
Defined.

(** X4. The reaper only waits and sleeps: every action of it is a
    blocking wait for any child or a 10 ms sleep. It sends no signal,
    touches no timer and never exits the process. *)
Theorem reap_only_waits_and_sleeps
    (childPID : Z) (rs : list WaitResult) :
  forallb is_reaper_effect (snd (reapUntilChildExit childPID rs)) = true.
Proof.
  induction rs as [|r rs IH]; [reflexivity|].
  cbn [reapUntilChildExit].
  destruct (reapUntilChildExit childPID rs) as [res tr]. cbn [snd] in IH.
  destruct r as [err|pid ws].
  - destruct (err =? EINTR); [exact IH|].
    destruct (err =? ECHILD); [reflexivity | exact IH].
  - destruct (pid =? childPID); [|exact IH].
    destruct (Exited ws); [reflexivity|].
    destruct (Signaled ws); reflexivity.
Qed.

(** ** Signals *)

Lemma upperASCII_idempotent c : upperASCII (upperASCII c) = upperASCII c.
Proof. destruct c as [[] [] [] [] [] [] [] []]; reflexivity. Qed.

Lemma upperASCII_keeps_ascii c :
  (byteZ (upperASCII c) <? RuneSelf) = (byteZ c <? RuneSelf).
Proof. destruct c as [[] [] [] [] [] [] [] []]; reflexivity. Qed.

Lemma is_ascii_upper name : is_ascii (map upperASCII name) = is_ascii name.
Proof.
  unfold is_ascii. induction name as [|c name IH]; [reflexivity|].
  cbn [map forallb]. rewrite upperASCII_keeps_ascii, IH. reflexivity.
Qed.

Lemma map_upperASCII_idempotent name :
  map upperASCII (map upperASCII name) = map upperASCII name.
Proof.
  induction name as [|c name IH]; [reflexivity|].
  cbn [map]. rewrite upperASCII_idempotent, IH. reflexivity.
Qed.

Section NamedSignals.

Context `{GoRuntime}.

Lemma ToUpper_ascii name :
  is_ascii name = true -> ToUpper name = map upperASCII name.
Proof. unfold ToUpper, is_ascii. intros ->. reflexivity. Qed.

(** X5. Converting a signal that is known only by its name: the case
    of the letters of an ASCII name does not matter; a name that
    converts gives one of SIGTERM, SIGINT, SIGQUIT, SIGHUP, SIGUSR1 and
    SIGUSR2; a name that does not convert gives signal 0 with the flag
    unset. *)
Theorem toSyscallSignal_by_name (name : gostring) :
  (is_ascii name = true ->
   toSyscallSignal (OtherSignal name)
   = toSyscallSignal (OtherSignal (map upperASCII name)))
  /\ (snd (toSyscallSignal (OtherSignal name)) = true ->
      In (fst (toSyscallSignal (OtherSignal name))) named_signals)
  /\ (snd (toSyscallSignal (OtherSignal name)) = false ->
      fst (toSyscallSignal (OtherSignal name)) = 0).
Proof.
  split; [|split].
  - intros Ha. cbn [toSyscallSignal].
    rewrite (ToUpper_ascii name Ha).
    rewrite (ToUpper_ascii (map upperASCII name))
      by (rewrite is_ascii_upper; exact Ha).
    rewrite map_upperASCII_idempotent. reflexivity.
  - cbn [toSyscallSignal]. unfold named_signals.
    repeat match goal with
           | |- context [if ?b then _ else _] => destruct b
           end; cbn [fst snd In]; intros E; try discriminate; auto 10.
  - cbn [toSyscallSignal].
    repeat match goal with
           | |- context [if ?b then _ else _] => destruct b
           end; cbn [fst snd]; intros E; try discriminate; reflexivity.
Qed.

(** X6. A signal value that is not a [syscall.Signal] is never
    terminate-class, even when its name is that of a terminate signal:
    the loop forwards it when its name converts, and neither arms the
    timer nor changes any of its variables. *)
Theorem named_signal_forwarded_never_arms
    (childPID stopTimeout : Z) (name : gostring) (v : LoopVars) :
  isTerminateSignal (OtherSignal name) = false
  /\ onSignal childPID stopTimeout (OtherSignal name) v
     = (tt, v,
        if snd (toSyscallSignal (OtherSignal name))
        then [Kill (- childPID) (fst (toSyscallSignal (OtherSignal name)))]
        else []).
Proof.
  split; [reflexivity|].
  rewrite onSignal_eq. cbn [os_Signal_eqb isTerminateSignal orb andb].
  cbv zeta. rewrite app_nil_r. reflexivity.
Qed.

End NamedSignals.

Lemma toSyscallSignal_by_name_witness :
  toSyscallSignal (H := exampleRuntime) (OtherSignal (str "SigUsr1"))
  = toSyscallSignal (H := exampleRuntime)
      (OtherSignal (map upperASCII (str "SigUsr1"))).
Proof.
  apply (proj1 (toSyscallSignal_by_name (H := exampleRuntime)
                  (str "SigUsr1"))).
  reflexivity.
Defined.

(** X7. The signals the worker turns into a cancellation are exactly
    the terminate-class signals of the supervisor: a signal arms the
    shutdown timer if and only if the worker is subscribed to it. *)
Theorem notified_are_terminate_class (n : Z) :
  In n notified <-> terminate_class n = true.
Proof.
  unfold notified, terminate_class, isTerminateSignal.
  cbn [os_Signal_eqb In]. split.
  - intros [<-|[<-|[<-|[<-|[]]]]]; reflexivity.
  - rewrite !orb_true_iff, !Z.eqb_eq. intros [[[->| ->]| ->]| ->]; auto.
Qed.

(** ** The supervisor loop, further *)

Section SupervisorExits.

Context `{GoRuntime}.
Variable childPID : Z.
Variable stopTimeout : Z.

Lemma run_app e1 : forall p e2,
  run childPID stopTimeout p (e1 ++ e2) =
  match run childPID stopTimeout p e1 with
  | None => None
  | Some (p1, t1) =>
      match run childPID stopTimeout p1 e2 with
      | None => None
      | Some (p2, t2) => Some (p2, t1 ++ t2)
      end
  end.
Proof.
  induction e1 as [|ev e1 IH]; intros p e2; cbn [app run].
  - destruct (run childPID stopTimeout p e2) as [[p2 t2]|]; reflexivity.
  - destruct (step childPID stopTimeout p ev) as [[p1 t1]|]; [|reflexivity].
    rewrite IH.
    destruct (run childPID stopTimeout p1 e1) as [[p2 t2]|]; [|reflexivity].
    destruct (run childPID stopTimeout p2 e2) as [[p3 t3]|]; [|reflexivity].
    rewrite app_assoc. reflexivity.
Qed.

Lemma drain_no_exit sweep :
  filter is_Exit (drainZombiesNonBlock sweep) = [].
Proof.
  induction sweep as [|r sweep IH]; [reflexivity|].
  destruct r as [err|pid ws]; cbn; [reflexivity|].
  destruct (pid <=? 0); [reflexivity | exact IH].
Qed.

(** One receive either ends the process, with the code that arrived on
    [done] as its last action, or does not exit at all. *)
Lemma step_exit p ev p1 t1 :
  step childPID stopTimeout p ev = Some (p1, t1) ->
  match p1 with
  | Terminated code =>
      delivers code ev
      /\ exists t, t1 = t ++ [Exit code] /\ filter is_Exit t = []
  | _ => filter is_Exit t1 = []
  end.
Proof.
  destruct p as [v|v|c]; destruct ev as [code sweep|n| |code];
    try discriminate.
  - cbn [step]. intros E. inversion E; subst. split.
    + right. exists sweep. reflexivity.
    + exists (Sleep (50 * Millisecond) :: drainZombiesNonBlock sweep).
      split; [reflexivity|]. cbn [filter is_Exit]. apply drain_no_exit.
  - rewrite step_signal.
    destruct (n =? SIGCHLD); [intros E; inversion E; reflexivity|].
    destruct (terminate_class n && negb (startOnce v));
      intros E; inversion E; subst; [|reflexivity].
    unfold arming. destruct (killTimer v); reflexivity.
  - cbn [step]. destruct (killTimerC (killTimer v)); [|discriminate].
    intros E. inversion E; subst. reflexivity.
  - cbn [step]. intros E. inversion E; subst. split.
    + left. reflexivity.
    + exists []. split; reflexivity.
Qed.

Lemma run_exit evs : forall p p' tr,
  run childPID stopTimeout p evs = Some (p', tr) ->
  (forall c, p <> Terminated c) ->
  match p' with
  | Terminated code =>
      filter is_Exit tr = [Exit code]
      /\ (exists tr', tr = tr' ++ [Exit code])
      /\ (exists pre last, evs = pre ++ [last] /\ delivers code last)
  | _ => filter is_Exit tr = []
  end.
Proof.
  induction evs as [|ev evs IH]; intros p p' tr; cbn [run].
  - intros E Hp. inversion E; subst.
    destruct p' as [v|v|c]; [reflexivity | reflexivity |].
    contradiction (Hp c). reflexivity.
  - destruct (step childPID stopTimeout p ev) as [[p1 t1]|] eqn:Es;
      [|discriminate].
    destruct (run childPID stopTimeout p1 evs) as [[p2 t2]|] eqn:Er;
      [|discriminate].
    intros E Hp. inversion E; subst p2 tr. clear E.
    pose proof (step_exit _ _ _ _ Es) as Hs.
    destruct p1 as [v1|v1|c1].
    + specialize (IH _ _ _ Er ltac:(discriminate)).
      destruct p' as [v'|v'|c']; rewrite filter_app, Hs; try exact IH.
      destruct IH as [Hf [[tr' ->] [pre [last [-> Hd]]]]].
      split; [exact Hf|]. split.
      * exists (t1 ++ tr'). rewrite app_assoc. reflexivity.
      * exists (ev :: pre), last. split; [reflexivity | exact Hd].
    + specialize (IH _ _ _ Er ltac:(discriminate)).
      destruct p' as [v'|v'|c']; rewrite filter_app, Hs; try exact IH.
      destruct IH as [Hf [[tr' ->] [pre [last [-> Hd]]]]].
      split; [exact Hf|]. split.
      * exists (t1 ++ tr'). rewrite app_assoc. reflexivity.
      * exists (ev :: pre), last. split; [reflexivity | exact Hd].
    + pose proof (run_terminated _ _ _ _ _ _ Er) as He. subst evs.
      cbn [run] in Er. inversion Er; subst p' t2. clear Er.
      destruct Hs as [Hd [t [-> Hf]]]. rewrite app_nil_r.
      split; [rewrite filter_app, Hf; reflexivity|]. split.
      * exists t. reflexivity.
      * exists [], ev. split; [reflexivity | exact Hd].
Qed.

(** X8. The supervisor exits at most once, as its last action, and
    only with a code that arrived on [done]: however its loop runs, it
    has not exited while it is still selecting or waiting for the
    child's code, and once it has, the code is the one the last receive
    delivered. *)
Theorem supervisor_exits_with_done_code
    (v : LoopVars) (evs : list Event) (p : Proc) (tr : Trace) :
  run childPID stopTimeout (Selecting v) evs = Some (p, tr) ->
  match p with
  | Terminated code =>
      filter is_Exit tr = [Exit code]
      /\ (exists tr', tr = tr' ++ [Exit code])
      /\ (exists pre last, evs = pre ++ [last] /\ delivers code last)
  | _ => filter is_Exit tr = []
  end.
Proof.
  intros Hr. apply (run_exit _ _ _ _ Hr). discriminate.
Qed.

(** X9. The forced kill needs a terminate-class signal first: from
    the start of the loop the timer case can only be taken after such a
    signal was received. When it is taken, SIGKILL goes to the child's
    process group, and the only thing the supervisor then does is to
    receive the child's code and exit. *)
Theorem forced_kill_only_after_terminate_signal
    (pre post : list Event) (p : Proc) (tr : Trace) :
  run childPID stopTimeout (Selecting initialVars)
    (pre ++ SelKillTimer :: post) = Some (p, tr) ->
  terminate_received pre = true
  /\ In (Kill (- childPID) SIGKILL) tr
  /\ (post = [] \/ exists code, post = [DoneAfterKill code]).
Proof.
  rewrite run_app.
  destruct (run childPID stopTimeout (Selecting initialVars) pre)
    as [[p1 t1]|] eqn:Ep; [|discriminate].
  cbn [run].
  destruct (step childPID stopTimeout p1 SelKillTimer)
    as [[p2 t2]|] eqn:Es; [|discriminate].
  destruct (run childPID stopTimeout p2 post) as [[p3 t3]|] eqn:Eq;
    [|discriminate].
  intros E. inversion E; subst p3 tr. clear E.
  destruct p1 as [v1|v1|c1]; try discriminate.
  pose proof (run_state _ _ _ _ _ _ Ep v1 eq_refl) as Hv.
  cbn [initialVars startOnce negb] in Hv. rewrite andb_true_r in Hv.
  cbn [step] in Es.
  destruct (killTimerC (killTimer v1)) eqn:Ek; [|discriminate].
  inversion Es; subst p2 t2. clear Es.
  split; [|split].
  - destruct (terminate_received pre); [reflexivity|].
    subst v1. discriminate.
  - apply in_or_app. right. left. reflexivity.
  - destruct post as [|ev post]; [left; reflexivity|]. right.
    cbn [run] in Eq. destruct ev as [code sweep|n| |code]; try discriminate.
    cbn [step] in Eq.
    destruct (run childPID stopTimeout (Terminated code) post)
      as [[p4 t4]|] eqn:Et; [|discriminate].
    apply run_terminated in Et. subst post. exists code. reflexivity.
Qed.

(** Any number of calls of [startKillTimer] once the timer is set. *)
Lemma times_startKillTimer_set n : forall v,
  killTimer v = Some stopTimeout ->
  filter is_NewTimer (snd (times n (startKillTimer stopTimeout) v)) = []
  /\ killTimer (snd (fst (times n (startKillTimer stopTimeout) v)))
     = Some stopTimeout.
Proof.
  induction n as [|n IH]; intros v Hk.
  - split; [reflexivity | exact Hk].
  - cbn [times]. unfold bind. rewrite startKillTimer_eq.
    destruct (IH {| startOnce := startOnce v;
                    killTimer := Some stopTimeout |} eq_refl) as [Hf Hd].
    destruct (times n (startKillTimer stopTimeout) _) as [[u v'] tr].
    cbn [fst snd] in *. split; [|exact Hd].
    rewrite filter_app, Hf. unfold arming. rewrite Hk. reflexivity.
Qed.

(** X10. [startKillTimer] creates a timer only when there is none: over
    any number of calls, one after the other, at most one [NewTimer]
    happens, exactly when no timer existed before the first call, and
    from the first call on the timer is set to the stop timeout. *)
Theorem startKillTimer_creates_one_timer (n : nat) (v : LoopVars) :
  filter is_NewTimer (snd (times (S n) (startKillTimer stopTimeout) v))
  = match killTimer v with
    | None => [NewTimer stopTimeout]
    | Some _ => []
    end
  /\ killTimer (snd (fst (times (S n) (startKillTimer stopTimeout) v)))
     = Some stopTimeout.
Proof.
  cbn [times]. unfold bind. rewrite startKillTimer_eq.
  destruct (times_startKillTimer_set n
              {| startOnce := startOnce v; killTimer := Some stopTimeout |}
              eq_refl) as [Hf Hd].
  destruct (times n (startKillTimer stopTimeout) _) as [[u v'] tr].
  cbn [fst snd] in *. split; [|exact Hd].
  rewrite filter_app, Hf, app_nil_r. unfold arming.
  destruct (killTimer v); reflexivity.
Qed.

End SupervisorExits.

Lemma supervisor_exits_with_done_code_witness :
  filter is_Exit
    [Kill (-20) SIGTERM; NewTimer (30 * Second); Kill (-20) SIGKILL; Exit 137]
  = [Exit 137]
  /\ (exists tr',
        [Kill (-20) SIGTERM; NewTimer (30 * Second); Kill (-20) SIGKILL;
         Exit 137] = tr' ++ [Exit 137])
  /\ (exists pre last,
        [SelSignal SIGTERM; SelKillTimer; DoneAfterKill 137] = pre ++ [last]
        /\ delivers 137 last).
Proof.
  exact (supervisor_exits_with_done_code (H := exampleRuntime)
           20 (30 * Second) initialVars
           [SelSignal SIGTERM; SelKillTimer; DoneAfterKill 137]
           (Terminated 137)
           [Kill (-20) SIGTERM; NewTimer (30 * Second); Kill (-20) SIGKILL;
            Exit 137]
           eq_refl).
Defined.

Lemma forced_kill_only_after_terminate_signal_witness :
  terminate_received [SelSignal SIGUSR1; SelSignal SIGINT] = true
  /\ In (Kill (- 20) SIGKILL)
       [Kill (-20) SIGUSR1; Kill (-20) SIGINT; NewTimer (30 * Second);
        Kill (-20) SIGKILL; Exit 137]
  /\ ([DoneAfterKill 137] = []
      \/ exists code, [DoneAfterKill 137] = [DoneAfterKill code]).
Proof.
  exact (forced_kill_only_after_terminate_signal (H := exampleRuntime)
           20 (30 * Second)
           [SelSignal SIGUSR1; SelSignal SIGINT] [DoneAfterKill 137]
           (Terminated 137)
           [Kill (-20) SIGUSR1; Kill (-20) SIGINT; NewTimer (30 * Second);
            Kill (-20) SIGKILL; Exit 137]
           eq_refl).
Defined.

(** ** The stop timeout, further *)

Lemma int64_range x : - 2 ^ 63 <= int64 x <= 2 ^ 63 - 1.
Proof.
  unfold int64. pose proof (Z.mod_pos_bound (x + 2 ^ 63) (2 ^ 64)).
  change (2 ^ 64) with 18446744073709551616 in *.
  change (2 ^ 63) with 9223372036854775808 in *. lia.
Qed.

Section StopTimeoutRange.

Context `{GoRuntime}.

Lemma ParseDuration_range s d :
  ParseDuration s = inr d -> - 2 ^ 63 <= d <= 2 ^ 63 - 1.
Proof.
  unfold ParseDuration.
  destruct (match s with
            | [] => (false, s)
            | c :: t =>
                if (byteZ c =? 45) || (byteZ c =? 43)
                then (byteZ c =? 45, t) else (false, s)
            end) as [neg s'].
  destruct (bytes_eqb s' (str "0")).
  - intros E. inversion E. change (2 ^ 63) with 9223372036854775808. lia.
  - destruct s' as [|c t]; [discriminate|].
    destruct (ParseDuration_loop _ _ _) as [e|d0]; [discriminate|].
    destruct neg.
    + intros E. inversion E. apply int64_range.
    + destruct (2 ^ 63 - 1 <? d0); [discriminate|].
      intros E. inversion E. apply int64_range.
Qed.

(** The three ways [parseStopTimeout] returns. *)
Lemma parseStopTimeout_cases env def :
  parseStopTimeout env def = (def, [])
  \/ (exists val, parseStopTimeout env def = rejected val def)
  \/ (exists d, parseStopTimeout env def = (d, [])
                /\ 0 <= d <= maxDuration).
Proof.
  rewrite parseStopTimeout_trimmed.
  destruct (TrimSpace (Getenv env stopTimeoutEnv)) as [|c t];
    [left; reflexivity|].
  cbv zeta. set (val := if isAllDigits (c :: t) then _ else _).
  destruct (ParseDuration val) as [e|d] eqn:E.
  - right. left. exists val. reflexivity.
  - destruct (Z.ltb_spec d 0).
    + right. left. exists val. reflexivity.
    + right. right. exists d. split; [reflexivity|].
      pose proof (ParseDuration_range val d E). unfold maxDuration. lia.
Qed.

(** X11. The stop timeout is never negative and never a partial
    result: [parseStopTimeout] returns either the default, or a duration
    from 0 to the largest [int64] without logging anything; it logs at
    most one warning, and only when it returns the default. *)
Theorem parseStopTimeout_default_or_valid (env : Environ) (def : Z) :
  (snd (parseStopTimeout env def) = []
   /\ (fst (parseStopTimeout env def) = def
       \/ 0 <= fst (parseStopTimeout env def) <= maxDuration))
  \/ (fst (parseStopTimeout env def) = def
      /\ exists val,
           snd (parseStopTimeout env def)
           = [Log (InvalidStopTimeout val def)]).
Proof.
  destruct (parseStopTimeout_cases env def) as [E|[[val E]|[d [E Hd]]]];
    rewrite E.
  - left. split; [reflexivity | left; reflexivity].
  - right. split; [reflexivity|]. exists val. reflexivity.
  - left. split; [reflexivity | right; exact Hd].
Qed.

(** X12. [EffectiveTimeout] is always a usable timeout: between 0 and
    the largest [int64], 30 seconds when the variable is not set, and
    30 seconds whenever a warning was logged. *)
Theorem EffectiveTimeout_usable (env : Environ) :
  0 <= fst (EffectiveTimeout env) <= maxDuration
  /\ (LookupEnv env stopTimeoutEnv = None ->
      EffectiveTimeout env = (30 * Second, []))
  /\ (snd (EffectiveTimeout env) <> [] ->
      fst (EffectiveTimeout env) = 30 * Second).
Proof.
  unfold EffectiveTimeout. split; [|split].
  - destruct (parseStopTimeout_cases env defaultStopTimeout)
      as [E|[[val E]|[d [E Hd]]]]; rewrite E; cbn [fst rejected];
      try exact Hd; vm_compute; split; discriminate.
  - unfold LookupEnv. intros E. rewrite parseStopTimeout_trimmed.
    unfold Getenv. rewrite E. reflexivity.
  - destruct (parseStopTimeout_cases env defaultStopTimeout)
      as [E|[[val E]|[d [E Hd]]]]; rewrite E; cbn [fst snd rejected];
      intros Hn; try reflexivity; contradiction Hn; reflexivity.
Qed.

Lemma parseStopTimeout_logs_only env def e :
  In e (snd (parseStopTimeout env def)) -> exists m, e = Log m.
Proof.
  destruct (parseStopTimeout_cases env def) as [E|[[val E]|[d [E Hd]]]];
    rewrite E; cbn [snd rejected In]; intros Hi; try contradiction.
  destruct Hi as [<-|[]]. eexists. reflexivity.
Qed.

(** X13. The supervisor arms its timer with the effective timeout and
    with nothing else: after a successful start the loop begins unarmed,
    for the pid of the started child, and any timer created in any run
    of the loop has the duration [EffectiveTimeout] reports, which is
    never negative. *)
Theorem runAsInit_arms_with_effective_timeout (env : Environ) (pid : Z) :
  runAsInit env (Started pid)
  = (StartChild (childEnvKey, childEnvVal) true :: snd (EffectiveTimeout env),
     Some (pid, fst (EffectiveTimeout env), Selecting initialVars))
  /\ (forall evs p tr d,
      run pid (fst (EffectiveTimeout env)) (Selecting initialVars) evs
      = Some (p, tr) ->
      In (NewTimer d) tr ->
      d = fst (EffectiveTimeout env) /\ 0 <= d <= maxDuration).
Proof.
  split.
  - unfold runAsInit, EffectiveTimeout.
    destruct (parseStopTimeout env defaultStopTimeout). reflexivity.
  - intros evs p tr d Hr Hi.
    destruct (run_effects _ _ _ _ _ _ Hr) as [_ Ht].
    assert (Hf : In (NewTimer d) (filter is_timer tr))
      by (apply filter_In; split; [exact Hi | reflexivity]).
    rewrite Ht in Hf. cbn [initialVars startOnce negb] in Hf.
    rewrite andb_true_r in Hf.
    destruct (terminate_received evs); [|contradiction].
    cbn in Hf. destruct Hf as [Hf|[]]. inversion Hf. split; [reflexivity|].
    unfold EffectiveTimeout.
    destruct (parseStopTimeout_cases env defaultStopTimeout)
      as [E|[[v E]|[d0 [E Hd]]]]; rewrite E; cbn [fst rejected];
      try exact Hd; vm_compute; split; discriminate.
Qed.

(** X14. The child that the supervisor starts becomes the worker: the
    supervisor starts it in a process group of its own and with a
    marker in its environment, and with that marker set [Run] takes the
    worker path whatever the pid and the rest of the environment, so
    the child never supervises or re-executes in turn. *)
Theorem started_child_becomes_worker
    (env : Environ) (start : StartResult)
    (k : string) (val : gostring) (setpgid : bool) :
  In (StartChild (k, val) setpgid) (fst (runAsInit env start)) ->
  setpgid = true
  /\ forall env' pid submain,
       Run (Setenv env' k val) pid submain = ToRunChild (runChild submain).
Proof.
  intros Hi.
  assert (E : StartChild (k, val) setpgid
              = StartChild (childEnvKey, childEnvVal) true).
  { unfold runAsInit in Hi. destruct start as [err|pid].
    - cbn [fst log_Fatalf In] in Hi.
      destruct Hi as [Hi|[Hi|[Hi|[]]]]; try discriminate. auto.
    - destruct (parseStopTimeout env defaultStopTimeout) as [d logged] eqn:Ep.
      cbn [fst In] in Hi. destruct Hi as [Hi|Hi]; [auto|].
      assert (Hl : In (StartChild (k, val) setpgid)
                     (snd (parseStopTimeout env defaultStopTimeout)))
        by (rewrite Ep; exact Hi).
      apply parseStopTimeout_logs_only in Hl. destruct Hl as [m Hm].
      discriminate. }
  inversion E; subst. split; [reflexivity|].
  intros env' pid submain. reflexivity.
Qed.

(** X15. A bare number is shorthand for the same number followed by
    "s": the two values give the same timeout, and when they are
    rejected the same warning. *)
Theorem bare_number_is_seconds
    (env1 env2 : Environ) (def : Z) (ds : gostring) :
  ds <> [] -> digits_only ds = true ->
  Getenv env1 stopTimeoutEnv = ds ->
  Getenv env2 stopTimeoutEnv = ds ++ str "s" ->
  parseStopTimeout env1 def = parseStopTimeout env2 def.
Proof.
  intros Hne Hd E1 E2.
  rewrite (parseStopTimeout_digits env1 def ds);
    [|rewrite E1; apply TrimSpace_digits; assumption|assumption|assumption].
  assert (Hs : solid_ends (ds ++ str "s")).
  { destruct ds as [|f t]; [congruence|].
    exists f, (t ++ str "s"), (f :: t), "s"%char.
    split; [reflexivity|]. split; [reflexivity|]. split; [|reflexivity].
    apply digit_solid. apply digits_only_cons in Hd.
    unfold isDigit. destruct Hd as [[H1 H2] _].
    apply andb_true_iff. split; apply Z.leb_le; assumption. }
  assert (Ht : TrimSpace (ds ++ str "s") = ds ++ str "s").
  { pose proof (TrimSpace_ws [] [] (ds ++ str "s") eq_refl eq_refl Hs) as E.
    cbn [concat app] in E. rewrite app_nil_r in E. exact E. }
  rewrite parseStopTimeout_trimmed, E2, Ht.
  assert (Hnd : isAllDigits (ds ++ str "s") = false).
  { rewrite isAllDigits_bytes. destruct ds as [|f t]; [congruence|].
    cbn [app]. change (f :: t ++ str "s") with ((f :: t) ++ str "s").
    unfold digits_only. rewrite forallb_app. apply andb_false_r. }
  destruct ds as [|f t]; [congruence|]. cbn [app]. cbv zeta.
  change (f :: t ++ str "s") with ((f :: t) ++ str "s").
  rewrite Hnd, ParseDuration_seconds by assumption.
  destruct (Z.leb_spec (decimal (f :: t)) maxSeconds); [|reflexivity].
  pose proof (decimal_from_grows (f :: t) 0 ltac:(lia) Hd) as Hg.
  fold (decimal (f :: t)) in Hg.
  destruct (Z.ltb_spec (decimal (f :: t) * Second) 0); [|reflexivity].
  unfold Second, Millisecond, Microsecond, Nanosecond in *. lia.
Qed.

End StopTimeoutRange.

Lemma started_child_becomes_worker_witness :
  true = true
  /\ forall env' pid submain,
       Run (Setenv env' childEnvKey childEnvVal) pid submain
       = ToRunChild (runChild submain).
Proof.
  apply (started_child_becomes_worker (H := exampleRuntime)
           emptyEnv (Started 20) childEnvKey childEnvVal true).
  left. reflexivity.
Defined.

Lemma bare_number_is_seconds_witness :
  parseStopTimeout (H := exampleRuntime) (timeoutEnv (str "45")) (33 * Second)
  = parseStopTimeout (H := exampleRuntime) (timeoutEnv (str "45s"))
      (33 * Second).
Proof.
  apply (bare_number_is_seconds (H := exampleRuntime)
           (timeoutEnv (str "45")) (timeoutEnv (str "45s")) (33 * Second)
           (str "45")).
  - discriminate.
  - reflexivity.
  - reflexivity.
  - reflexivity.
Defined.

(** ** Dispatch and the worker, further *)

Lemma marker_set_ChildPIDEnv env :
  marker_set env = true <-> ChildPIDEnv env = (childEnvVal, true).
Proof.
  unfold marker_set, ChildPIDEnv, Getenv, LookupEnv.
  destruct (env childEnvKey) as [v|].
  - rewrite bytes_eqb_eq. split; [intros ->; reflexivity|].
    intros E. inversion E. reflexivity.
  - split; discriminate.
Qed.

(** X16. The exported helpers predict the role [Run] takes: the worker
    path exactly when [ChildPIDEnv] reports the marker value as set;
    otherwise the supervisor path when [IsPID1] holds and the direct run
    when it does not. *)
Theorem Run_role_by_helpers (env : Environ) (pid : Z) (submain : SubMain) :
  (role (Run env pid submain) = WorkerRole
   <-> ChildPIDEnv env = (childEnvVal, true))
  /\ (role (Run env pid submain) = Supervisor
      <-> IsPID1 pid = true /\ ChildPIDEnv env <> (childEnvVal, true))
  /\ (role (Run env pid submain) = Direct
      <-> IsPID1 pid = false /\ ChildPIDEnv env <> (childEnvVal, true)).
Proof.
  rewrite <- marker_set_ChildPIDEnv. unfold Run, IsPID1.
  fold (marker_set env).
  destruct (marker_set env), (pid =? 1); cbn [negb role];
    repeat split; try discriminate; try tauto; intros [? ?];
    congruence.
Qed.

(** X17. [isAllDigits], which looks at the string rune by rune, holds
    exactly of the non-empty strings whose every byte is one of '0' to
    '9': digits outside ASCII, signs, spaces and the empty string are
    all refused. *)
Theorem isAllDigits_iff_ascii_digits (s : gostring) :
  isAllDigits s = true
  <-> s <> [] /\ Forall (fun c => 48 <= byteZ c <= 57) s.
Proof.
  rewrite isAllDigits_bytes. destruct s as [|c t].
  - split; [discriminate | intros [Hn _]; congruence].
  - unfold digits_only. rewrite forallb_forall, Forall_forall. split.
    + intros Hd. split; [discriminate|]. intros x Hx.
      specialize (Hd x Hx). unfold isDigit in Hd.
      apply andb_true_iff in Hd. rewrite !Z.leb_le in Hd. exact Hd.
    + intros [_ Hd] x Hx. specialize (Hd x Hx). unfold isDigit.
      apply andb_true_iff. rewrite !Z.leb_le. exact Hd.
Qed.




Lemma worker_step_buffer w ev w' tr :
  worker_step w ev = Some (Working w', tr) ->
  (length (termCh w) <= 8)%nat /\ Forall (fun sig => In sig notified) (termCh w) ->
  (length (termCh w') <= 8)%nat /\ Forall (fun sig => In sig notified) (termCh w').
Proof.
  destruct ev as [sig| |]; unfold worker_step.
  - destruct (existsb (Z.eqb sig) notified) eqn:Ex; [|discriminate].
    apply existsb_exists in Ex. destruct Ex as [x [Hx Hx']].
    apply Z.eqb_eq in Hx'. subst x.
    unfold len_nat_lt, termChCap.
    destruct (Z.ltb_spec (Z.of_nat (length (termCh w))) 8);
      intros E; inversion E; subst; cbn [termCh]; [|tauto].
    intros [Hl Hf]. split.
    + rewrite length_app. cbn [length]. lia.
    + apply Forall_app. split; [exact Hf|]. constructor; [exact Hx|constructor].
  - destruct (termCh w) as [|x rest] eqn:Et; [discriminate|].
    unfold cancel. cbn [ctxErr termCh running].
    destruct (ctxErr w); intros E; inversion E; subst; cbn [termCh];
      intros [Hl Hf]; cbn [length] in Hl; inversion Hf; subst;
      (split; [lia | assumption]).
  - destruct (running w); intros E; inversion E; subst. cbn [termCh]. tauto.
Qed.

(** X19. The worker's signal buffer keeps its bound: however signals
    and receives interleave, [termCh] never holds more than its eight
    slots, and everything in it is one of the four subscribed signals;
    a signal that finds the buffer full is dropped, not queued. *)
Theorem worker_buffer_bounded
    (submain : SubMain) (evs : list WorkerEvent) (w : Worker) (tr : Trace) :
  worker_run (Working (runChild submain)) evs = Some (Working w, tr) ->
  (length (termCh w) <= 8)%nat
  /\ Forall (fun sig => In sig notified) (termCh w)
  /\ forall sig, In sig notified -> length (termCh w) = 8%nat ->
       worker_step w (Deliver sig) = Some (Working w, []).
Proof.
  intros Hr.
  assert (Hb : (length (termCh w) <= 8)%nat
               /\ Forall (fun sig => In sig notified) (termCh w)).
  { assert (H0 : (length (termCh (runChild submain)) <= 8)%nat
                 /\ Forall (fun sig => In sig notified)
                      (termCh (runChild submain)))
      by (cbn; split; [lia | constructor]).
    revert Hr H0. generalize (runChild submain) as w0. revert w tr.
    induction evs as [|ev evs IH]; intros w tr w0; cbn [worker_run].
    - intros E. inversion E; subst. tauto.
    - destruct (worker_step w0 ev) as [[p1 t1]|] eqn:Es; [|discriminate].
      destruct (worker_run p1 evs) as [[p2 t2]|] eqn:Er; [|discriminate].
      intros E H0. inversion E; subst p2 tr. clear E.
      destruct p1 as [w1|c1].
      + apply (IH _ _ _ Er). apply (worker_step_buffer _ _ _ _ Es H0).
      + destruct evs; discriminate. }
  destruct Hb as [Hl Hf]. split; [exact Hl|]. split; [exact Hf|].
  intros sig Hs Hfull. unfold worker_step.
  assert (Hex : existsb (Z.eqb sig) notified = true).
  { apply existsb_exists. exists sig. split; [exact Hs | apply Z.eqb_refl]. }
  rewrite Hex. unfold len_nat_lt, termChCap. rewrite Hfull. reflexivity.
Qed.

Lemma worker_buffer_bounded_witness :
  (length [SIGTERM; SIGHUP] <= 8)%nat
  /\ Forall (fun sig => In sig notified) [SIGTERM; SIGHUP]
  /\ forall sig, In sig notified -> length [SIGTERM; SIGHUP] = 8%nat ->
       worker_step
         {| ctxErr := true; termCh := [SIGTERM; SIGHUP];
            running := Return 5 |} (Deliver sig)
       = Some (Working {| ctxErr := true; termCh := [SIGTERM; SIGHUP];
                          running := Return 5 |}, []).
Proof.
  exact (worker_buffer_bounded (Return 5)
           [Deliver SIGINT; Deliver SIGTERM; HandlerRecv; Deliver SIGHUP]
           {| ctxErr := true; termCh := [SIGTERM; SIGHUP];
              running := Return 5 |}
           [CloseDone] eq_refl).
Defined.

(** ** The test helpers *)

Lemma store_at_end (F : list gostring) e x rest :
  PsiTest.store (length F) e (F ++ x :: rest) = F ++ e :: rest.
Proof.
  induction F as [|f F IH]; [reflexivity|].
  cbn [length app PsiTest.store]. rewrite IH. reflexivity.
Qed.

Lemma nth_after (F G : list gostring) x rest :
  nth (length F + length G) (F ++ G ++ x :: rest) [] = x.
Proof.
  rewrite app_nth2 by lia.
  replace (length F + length G - length F)%nat with (length G) by lia.
  rewrite app_nth2 by lia. rewrite Nat.sub_diag. reflexivity.
Qed.

(** The loop of [filterEnv] with [F] kept so far, [G] the stale entries
    between the end of [out] and the range index, and [todo] still to
    visit. *)
Lemma filterEnv_loop_inv prefix todo : forall F G,
  exists R,
    PsiTest.filterEnv_loop prefix (length todo)
      (length F + length G) (length F) (F ++ G ++ todo)
    = (length (F ++ filter (fun e => negb (HasPrefix e prefix)) todo),
       (F ++ filter (fun e => negb (HasPrefix e prefix)) todo) ++ R)
    /\ length R
       = (length (G ++ todo)
          - length (filter (fun e => negb (HasPrefix e prefix)) todo))%nat.
Proof.
  induction todo as [|x todo IH]; intros F G.
  - exists G. cbn [length filter PsiTest.filterEnv_loop].
    rewrite !app_nil_r. split; [reflexivity | lia].
  - cbn [length PsiTest.filterEnv_loop]. rewrite nth_after.
    cbn [filter]. destruct (HasPrefix x prefix) eqn:Ex; cbn [negb].
    + destruct (IH F (G ++ [x])) as [R [E Hl]].
      rewrite length_app in E. cbn [length] in E.
      replace (length F + (length G + 1))%nat
        with (S (length F + length G)) in E by lia.
      rewrite <- app_assoc in E. cbn [app] in E.
      exists R. split; [exact E|].
      rewrite <- app_assoc in Hl. cbn [app] in Hl. exact Hl.
    + destruct G as [|g G].
      * cbn [app length]. rewrite Nat.add_0_r, store_at_end.
        destruct (IH (F ++ [x]) []) as [R [E Hl]].
        rewrite length_app in E. cbn [length app] in E.
        rewrite Nat.add_0_r in E.
        replace (length F + 1)%nat with (S (length F)) in E by lia.
        rewrite <- !app_assoc in E. cbn [app] in E.
        exists R. rewrite <- app_assoc. cbn [app].
        split; [rewrite E; rewrite !length_app; cbn [length]; f_equal; lia|].
        cbn [app length] in *. lia.
      * cbn [app]. rewrite store_at_end.
        destruct (IH (F ++ [x]) (G ++ [x])) as [R [E Hl]].
        rewrite !length_app in E. cbn [length] in E.
        replace (length F + 1 + (length G + 1))%nat
          with (S (length F + S (length G))) in E by lia.
        replace (length F + 1)%nat with (S (length F)) in E by lia.
        rewrite <- !app_assoc in E. cbn [app] in E.
        exists R. rewrite <- app_assoc. cbn [app length].
        split; [rewrite E; rewrite !length_app; cbn [length]; f_equal; lia|].
        rewrite <- app_assoc in Hl. cbn [app] in Hl.
        rewrite !length_app in *. cbn [length] in *. lia.
Qed.

(** X20. [filterEnv] filters in place and still returns the right
    list: the entries that do not start with the key and "=", in their
    order, none lost and none that starts with it left; the caller's
    slice keeps its length and has the result at its front. *)
Theorem filterEnv_keeps_other_entries (env : list gostring) (key : gostring) :
  fst (PsiTest.filterEnv env key) = filter (kept key) env
  /\ Forall (fun e => HasPrefix e (key ++ str "=") = false)
       (fst (PsiTest.filterEnv env key))
  /\ length (snd (PsiTest.filterEnv env key)) = length env
  /\ firstn (length (fst (PsiTest.filterEnv env key)))
       (snd (PsiTest.filterEnv env key))
     = fst (PsiTest.filterEnv env key).
Proof.
  unfold PsiTest.filterEnv.
  destruct (filterEnv_loop_inv (key ++ str "=") env [] []) as [R [E Hl]].
  cbn [length app Nat.add] in E, Hl. rewrite E.
  fold (kept key) in *. cbn [app fst snd].
  assert (Ef : firstn (length (filter (kept key) env))
                 (filter (kept key) env ++ R) = filter (kept key) env).
  { rewrite firstn_app, firstn_all, Nat.sub_diag. cbn [firstn].
    apply app_nil_r. }
  rewrite Ef. split; [reflexivity|]. split; [|split].
  - apply Forall_forall. intros e He. apply filter_In in He.
    destruct He as [_ He]. unfold kept in He.
    apply negb_true_iff in He. exact He.
  - rewrite length_app, Hl.
    pose proof (filter_length_le (kept key) env). lia.
  - exact Ef.
Qed.
